(** * Monte Carlo tree search node: a shallow embedding

    Source: [src/montecarlotreesearchnode.py], class
    [MonteCarloTreeSearchNode].

    Python objects are mutable and referenced by identity, so the tree lives
    in an arena: a [heap] is the list of all nodes ever constructed and a
    node reference is its index.  Methods that mutate are functions
    [heap -> heap * outcome A] (the heap that is returned on an exception is
    the heap at the moment the exception was raised); properties, which only
    read, are functions [heap -> outcome A].

    Floating point values are IEEE binary64, computed with the executable
    specification [SpecFloat] of the core library. *)

From Stdlib Require Import ZArith Floats.SpecFloat.
From stdpp Require Import base option list gmap strings.

(** ** binary64 arithmetic *)

Module F64.

Definition prec : Z := 53.
Definition emax : Z := 1024.

Definition inf : spec_float := S754_infinity false.
Definition neg_inf : spec_float := S754_infinity true.
Definition nan : spec_float := S754_nan.
Definition zero : spec_float := S754_zero false.

Definition add : spec_float -> spec_float -> spec_float := SFadd prec emax.
Definition mul : spec_float -> spec_float -> spec_float := SFmul prec emax.
Definition div : spec_float -> spec_float -> spec_float := SFdiv prec emax.
Definition sqrt : spec_float -> spec_float := SFsqrt prec emax.
Definition leb : spec_float -> spec_float -> bool := SFleb.

Definition is_nan (x : spec_float) : bool :=
  match x with S754_nan => true | _ => false end.

Definition is_finite (x : spec_float) : bool :=
  match x with S754_zero _ | S754_finite _ _ _ => true | _ => false end.

(** Conversion of a Python [int] to float64, rounding to nearest even
    (what numpy does with an integer operand). *)
Definition of_int (n : Z) : spec_float := binary_normalize prec emax n 0 false.

(** An integer as an exact (unrounded) operand. *)
Definition exact_int (n : Z) : spec_float :=
  match n with
  | Z0 => S754_zero false
  | Zpos p => S754_finite false p 0
  | Zneg p => S754_finite true p 0
  end.

(** Python's [int / int]: the quotient of the two integers, rounded once. *)
Definition truediv (a b : Z) : spec_float := div (exact_int a) (exact_int b).

(** [np.argmax] on a float64 array: index of the first maximum, where a
    NaN counts as maximal (the scan stops at the first NaN). *)
Fixpoint argmax_from (mp : spec_float) (mi i : nat) (l : list spec_float) : nat :=
  match l with
  | [] => mi
  | x :: l' =>
      if leb x mp then argmax_from mp mi (S i) l'
      else if is_nan x then i
      else argmax_from x i (S i) l'
  end.

Definition argmax (l : list spec_float) : nat :=
  match l with
  | [] => 0
  | x :: l' => if is_nan x then 0 else argmax_from x 0 1 l'
  end.

End F64.

(** ** The collaborators *)

(** [gamestate.GameState] and [drawplayer.OnlyDrawPlayer] are imported, not
    defined, by the module: they are taken as an interface.  A game state is
    an immutable value: [get_valid_moves] yields a fresh list on each call and
    [make_move] a new state. *)
Class Game := {
  GameState : Type;
  Move : Type;
  Player : Type;
  Player_eq_dec :: EqDecision Player;
  Player_countable :: Countable Player;
  OnlyDrawPlayer : Player;
  get_valid_moves : GameState -> list Move;
  make_move : GameState -> Move -> GameState;
  winner : GameState -> option Player;
  current_player : GameState -> Player;
  players : GameState -> list Player;
}.

(** The value of [np.log] at an integer above one is whatever the platform's
    math library returns. *)
Class Libm := { libm_log : positive -> spec_float }.

(** [np.log] applied to a visit count. *)
Definition np_log `{Libm} (n : Z) : spec_float :=
  match n with
  | Z0 => F64.neg_inf
  | Zpos xH => F64.zero
  | Zpos p => libm_log p
  | Zneg _ => F64.nan
  end.

(** ** Exceptions and outcomes *)

Inductive exn := IndexError | KeyError | AttributeError | ValueError | RecursionError.

(** [Stuck] is not a Python result: it marks a reference to a node that is not
    in the heap or a loop that ran out of its step budget. *)
Inductive outcome (A : Type) :=
| Ok (a : A)
| Raise (e : exn)
| Stuck.
Arguments Ok {A} a.
Arguments Raise {A} e.
Arguments Stuck {A}.

Section Node.
Context `{G : Game} `{L : Libm}.

(** ** Nodes and the heap *)

Record node := Node {
  game_state : GameState;
  parent : option nat;
  action : option Move;
  children : list nat;
  untried_actions : list Move;
  wins : gmap Player nat;
  visits : nat;
}.

Local Abbreviation heap := (list node).

Definition with_children (nd : node) (cs : list nat) : node :=
  Node (game_state nd) (parent nd) (action nd) cs (untried_actions nd) (wins nd) (visits nd).
Definition with_untried_actions (nd : node) (us : list Move) : node :=
  Node (game_state nd) (parent nd) (action nd) (children nd) us (wins nd) (visits nd).
Definition with_wins (nd : node) (ws : gmap Player nat) : node :=
  Node (game_state nd) (parent nd) (action nd) (children nd) (untried_actions nd) ws (visits nd).
Definition with_visits (nd : node) (v : nat) : node :=
  Node (game_state nd) (parent nd) (action nd) (children nd) (untried_actions nd) (wins nd) v.

(** ** Readers and state transformers *)

Definition R (A : Type) := heap -> outcome A.
Definition M (A : Type) := heap -> heap * outcome A.

Definition rret {A} (a : A) : R A := fun _ => Ok a.
Definition rraise {A} (e : exn) : R A := fun _ => Raise e.
Definition rbind {A B} (r : R A) (k : A -> R B) : R B :=
  fun h => match r h with
           | Ok a => k a h
           | Raise e => Raise e
           | Stuck => Stuck
           end.

Definition ret {A} (a : A) : M A := fun h => (h, Ok a).
Definition raise {A} (e : exn) : M A := fun h => (h, Raise e).
Definition stuck {A} : M A := fun h => (h, Stuck).
Definition bind {A B} (m : M A) (k : A -> M B) : M B :=
  fun h => match m h with
           | (h', Ok a) => k a h'
           | (h', Raise e) => (h', Raise e)
           | (h', Stuck) => (h', Stuck)
           end.
Definition read {A} (r : R A) : M A := fun h => (h, r h).

Definition deref (n : nat) : R node :=
  fun h => match h !! n with Some nd => Ok nd | None => Stuck end.
Definition store (n : nat) (nd : node) : M unit :=
  fun h => (<[n := nd]> h, Ok tt).
Definition alloc (nd : node) : M nat :=
  fun h => (h ++ [nd], Ok (length h)).

(** [list.pop()]: the last entry and the list without it. *)
Definition pop {A} (l : list A) : option (list A * A) :=
  match last l with
  | Some a => Some (removelast l, a)
  | None => None
  end.

Fixpoint rmap {A B} (f : A -> R B) (l : list A) : R (list B) :=
  match l with
  | [] => rret []
  | a :: l' => rbind (f a) (fun b => rbind (rmap f l') (fun bs => rret (b :: bs)))
  end.

End Node.

Abbreviation heap := (list node).

Declare Scope heap_scope.
Delimit Scope heap_scope with heap.
Notation "'do' x <- m ; k" := (bind m (fun x => k))
  (at level 10, x name, m at level 100, k at level 200, only parsing) : heap_scope.
Notation "'run' m ; k" := (bind m (fun _ => k))
  (at level 10, m at level 100, k at level 200, only parsing) : heap_scope.
Notation "'get' x <- r ; k" := (rbind r (fun x => k))
  (at level 10, x name, r at level 100, k at level 200, only parsing) : heap_scope.
Open Scope heap_scope.

Section Methods.
Context `{G : Game} `{L : Libm}.

(** ** [__init__] *)

Definition init_wins (gs : GameState) : gmap Player nat :=
  <[OnlyDrawPlayer := 0]> (foldl (fun m p => <[p := 0]> m) ∅ (players gs)).

Definition new_node (gs : GameState) (p : option nat) (a : option Move) : node :=
  {| game_state := gs; parent := p; action := a; children := [];
     untried_actions := get_valid_moves gs; wins := init_wins gs; visits := 0 |}.

(** ** Properties *)

Definition is_terminal (n : nat) : R bool :=
  get nd <- deref n ; rret (bool_decide (winner (game_state nd) ≠ None)).

Definition is_fully_expanded (n : nat) : R bool :=
  get nd <- deref n ;
  rret (bool_decide (length (children nd) = length (get_valid_moves (game_state nd)))).

Definition win_ratio (n : nat) : R spec_float :=
  get nd <- deref n ;
  if bool_decide (visits nd = 0) then rret F64.inf
  else match parent nd with
       | None => rraise AttributeError
       | Some p =>
           get pd <- deref p ;
           match wins nd !! current_player (game_state pd) with
           | None => rraise KeyError
           | Some w => rret (F64.truediv (Z.of_nat w) (Z.of_nat (visits nd)))
           end
       end.

(** ** [get_ucb] and [select_child_with_max_ucb] *)

Definition get_ucb (child : nat) (c : spec_float) : R spec_float :=
  get wr <- win_ratio child ;
  get cd <- deref child ;
  match parent cd with
  | None => rraise AttributeError
  | Some p =>
      get pd <- deref p ;
      rret (F64.add wr
              (F64.mul c
                 (F64.sqrt (F64.div (np_log (Z.of_nat (visits pd)))
                                    (F64.of_int (Z.of_nat (visits cd)))))))
  end.

Definition select_child_with_max_ucb (n : nat) (c : spec_float) : R nat :=
  get nd <- deref n ;
  get ucb_values <- rmap (fun child => get_ucb child c) (children nd) ;
  match ucb_values with
  | [] => rraise ValueError
  | _ => fun _ => match children nd !! F64.argmax ucb_values with
                  | Some ch => Ok ch
                  | None => Stuck
                  end
  end.

(** ** [expand] *)

Definition expand (n : nat) : M nat :=
  do nd <- read (deref n) ;
  match pop (untried_actions nd) with
  | None => raise IndexError
  | Some (rest, a) =>
      run store n (with_untried_actions nd rest) ;
      let new_game_state := make_move (game_state nd) a in
      do child_node <- alloc (new_node new_game_state (Some n) (Some a)) ;
      do nd' <- read (deref n) ;
      run store n (with_children nd' (children nd' ++ [child_node])) ;
      ret child_node
  end.

(** ** [backpropagate]

    The method is recursive along [parent]; [fuel] is the number of frames
    the interpreter still allows. *)
Fixpoint backpropagate (fuel : nat) (n : nat) (who_won : Player) : M unit :=
  match fuel with
  | 0 => raise RecursionError
  | S fuel' =>
      do nd <- read (deref n) ;
      run store n (with_visits nd (visits nd + 1)) ;
      do nd <- read (deref n) ;
      match wins nd !! who_won with
      | None => raise KeyError
      | Some k =>
          run store n (with_wins nd (<[who_won := k + 1]> (wins nd))) ;
          match parent nd with
          | None => ret tt
          | Some p => backpropagate fuel' p who_won
          end
      end
  end.

(** ** [select]

    One unit of [fuel] is one evaluation of the loop condition. *)
Fixpoint select (fuel : nat) (leaf_node : nat) (c : spec_float) : M nat :=
  match fuel with
  | 0 => stuck
  | S fuel' =>
      do t <- read (is_terminal leaf_node) ;
      if t then ret leaf_node
      else
        do fe <- read (is_fully_expanded leaf_node) ;
        if negb fe then expand leaf_node
        else
          do ch <- read (select_child_with_max_ucb leaf_node c) ;
          select fuel' ch c
  end.

End Methods.

(** ** What the driver can build, and the shape it has *)

(** What the node expects of its game: a position without a winner offers a
    move, and the player to move is one of the players of (or the draw
    sentinel for) every position a valid move leads to. *)
Class GameContract `{G : Game} : Prop := {
  moves_exist : forall gs, winner gs = None -> get_valid_moves gs <> [];
  mover_known : forall gs a,
    a ∈ get_valid_moves gs ->
    current_player gs ∈ OnlyDrawPlayer :: players (make_move gs a);
}.

Section Shape.
Context `{G : Game} `{L : Libm}.

(** The heap [expand] leaves when it succeeds. *)
Definition expanded (h : heap) (n : nat) (nd : node) (us : list Move) (a : Move) : heap :=
  <[n := with_children (with_untried_actions nd us) (children nd ++ [length h])]> h
    ++ [new_node (make_move (game_state nd) a) (Some n) (Some a)].

(** One call of a mutating method, whatever its outcome. *)
Inductive step : heap -> heap -> Prop :=
| step_expand h n h' o :
    expand n h = (h', o) -> step h h'
| step_backpropagate fuel h n w h' o :
    backpropagate fuel n w h = (h', o) -> step h h'
| step_select fuel h n c h' o :
    select fuel n c h = (h', o) -> step h h'.

(** Heaps built by constructing roots and calling methods. *)
Inductive reachable : heap -> Prop :=
| reachable_empty : reachable []
| reachable_root h gs : reachable h -> reachable (h ++ [new_node gs None None])
| reachable_step h h' : reachable h -> step h h' -> reachable h'.

(** A node is constructed after its parent. *)
Definition parent_below (h : heap) : Prop :=
  forall n nd p, h !! n = Some nd -> parent nd = Some p -> p < n.

(** The untried actions are what is left at the front of the valid moves;
    each move taken off the back has become one child. *)
Definition moves_accounted (nd : node) : Prop :=
  exists tried, get_valid_moves (game_state nd) = untried_actions nd ++ tried /\
                length tried = length (children nd).

(** A child is a later node that points back to its parent and holds the
    state after one of the parent's valid moves. *)
Definition child_of (h : heap) (n : nat) (nd : node) (c : nat) : Prop :=
  exists cd a, h !! c = Some cd /\ n < c /\ parent cd = Some n /\
               a ∈ get_valid_moves (game_state nd) /\
               game_state cd = make_move (game_state nd) a.

(** The keys of [wins] are those set by the constructor. *)
Definition keys_fixed (nd : node) : Prop :=
  forall k, is_Some (wins nd !! k) <-> k ∈ OnlyDrawPlayer :: players (game_state nd).

Record well_formed (h : heap) : Prop := {
  wf_parent : parent_below h;
  wf_moves : forall n nd, h !! n = Some nd -> moves_accounted nd;
  wf_children : forall n nd c, h !! n = Some nd -> c ∈ children nd -> child_of h n nd c;
  wf_keys : forall n nd, h !! n = Some nd -> keys_fixed nd;
}.

(** [on_path h n m]: [m] is [n] or one of its ancestors. *)
Inductive on_path (h : heap) : nat -> nat -> Prop :=
| on_path_here n : on_path h n n
| on_path_up n nd p m :
    h !! n = Some nd -> parent nd = Some p -> on_path h p m -> on_path h n m.

(** [depth h n d]: following [parent] from [n] reaches a root after [d]
    steps. *)
Inductive depth (h : heap) : nat -> nat -> Prop :=
| depth_root n nd :
    h !! n = Some nd -> parent nd = None -> depth h n 0
| depth_child n nd p d :
    h !! n = Some nd -> parent nd = Some p -> depth h p d -> depth h n (S d).

(** One rollout credited to a node: one more visit, one more win for [w],
    nothing else touched. *)
Definition credited (w : Player) (nd nd' : node) : Prop :=
  visits nd' = visits nd + 1 /\
  (exists k, wins nd !! w = Some k /\ wins nd' = <[w := k + 1]> (wins nd)) /\
  game_state nd' = game_state nd /\ parent nd' = parent nd /\
  action nd' = action nd /\ children nd' = children nd /\
  untried_actions nd' = untried_actions nd.

(** [backpropagate] only changes counters: the heap keeps its length, and
    every node its state, links, children, untried actions and the key set
    of [wins]. *)
Definition same_shape (nd nd' : node) : Prop :=
  game_state nd' = game_state nd /\ parent nd' = parent nd /\
  action nd' = action nd /\ children nd' = children nd /\
  untried_actions nd' = untried_actions nd /\
  (forall k, is_Some (wins nd' !! k) <-> is_Some (wins nd !! k)).

Definition counters_only (h h' : heap) : Prop :=
  length h' = length h /\
  forall m md, h !! m = Some md -> exists md', h' !! m = Some md' /\ same_shape md md'.

(** One frame of [backpropagate] on a node that has the key. *)
Definition credit (w : Player) (k : nat) (nd : node) : node :=
  with_wins (with_visits nd (visits nd + 1)) (<[w := k + 1]> (wins nd)).

(** A child that has not been visited yet. *)
Definition unvisited (h : heap) (ch : nat) : bool :=
  match h !! ch with
  | Some cd => bool_decide (visits cd = 0)
  | None => false
  end.

(** What [get_ucb] computes for an unvisited child of a node with [pv]
    visits: [inf + c * sqrt (log pv / 0)]. *)
Definition unvisited_ucb (pv : nat) (c : spec_float) : spec_float :=
  F64.add F64.inf
    (F64.mul c (F64.sqrt (F64.div (np_log (Z.of_nat pv)) (F64.of_int 0)))).

(** The walk of [select]: from [n] down through fully expanded, non-terminal
    nodes, each time to the child [select_child_with_max_ucb] picks. *)
Inductive descends (c : spec_float) (h : heap) : nat -> nat -> Prop :=
| descends_here n : descends c h n n
| descends_down n ch m :
    is_terminal n h = Ok false ->
    is_fully_expanded n h = Ok true ->
    select_child_with_max_ucb n c h = Ok ch ->
    descends c h ch m ->
    descends c h n m.

End Shape.

(** ** A concrete game and math library, for examples

    A take-away game: a pile of tokens, players 1 and 2 alternate and remove
    one or two tokens; whoever takes the last token wins.  A state is the
    pile and whether player 1 is to move; player 0 is the draw sentinel. *)

Module Toy.

Definition player_of (first : bool) : nat := if first then 1 else 2.

#[export] Instance game : Game := {|
  GameState := nat * bool;
  Move := nat;
  Player := nat;
  OnlyDrawPlayer := 0;
  get_valid_moves := fun gs =>
    match fst gs with 0 => [] | 1 => [1] | _ => [1; 2] end;
  make_move := fun gs m => (fst gs - m, negb (snd gs));
  winner := fun gs =>
    match fst gs with 0 => Some (player_of (negb (snd gs))) | _ => None end;
  current_player := fun gs => player_of (snd gs);
  players := fun _ => [1; 2];
|}.

(** Natural logarithms of 2, 3 and 4 to the nearest double; beyond the table
    a coarse stand-in, [floor (log2 p) * ln 2]. *)
Definition ln2 : spec_float := S754_finite false 6243314768165359 (-53).

#[export] Instance libm : Libm := {|
  libm_log := fun p =>
    match p with
    | 2 => ln2
    | 3 => S754_finite false 4947709893870347 (-52)
    | 4 => S754_finite false 6243314768165359 (-52)
    | _ => F64.mul (F64.of_int (Z.log2 (Zpos p))) ln2
    end%positive;
|}.

(** Example heaps.  A root on a pile of two tokens with player 1 to move,
    expanded twice: node 1 takes both tokens (and wins), node 2 takes one. *)
Definition root_node : node := new_node (2, true) None None.
Definition h0 : heap := [root_node].
Definition h1 : heap := fst (expand 0 h0).
Definition h2 : heap := fst (expand 0 h1).

(** A rollout won by player 1, credited from node 1: once, and twice. *)
Definition h_once : heap := fst (backpropagate 5 1 1 h2).
Definition h_twice : heap := fst (backpropagate 5 1 1 h_once).

(** [backpropagate] from node 1 with a winner that no node knows. *)
Definition h_failed : heap := fst (backpropagate 5 1 7 h2).

Definition node_at (h : heap) (n : nat) : node := default root_node (h !! n).

Definition one : spec_float := F64.of_int 1.

End Toy.

(** ** The rest of the class *)

(** What [rollout] reads off a game state besides the interface of [Game]. *)
Class RolloutGame `{G : Game} := {
  is_game_over : GameState -> bool;
  get_heuristic_move : GameState -> Move;
}.

(** [np.random.randint n]: the number drawn for the bound [n]. *)
Class Randint := { randint : nat -> nat }.

(** What the f-string of [__str__] makes of the values it interpolates:
    the node's identity, its action, its visits, its win ratio, whether it is
    fully expanded, and its children. *)
Class Render `{G : Game} := {
  render : nat -> option Move -> nat -> spec_float -> bool -> list nat -> string;
}.

(** A position of a non-NaN float64 in the order [F64.leb] compares by:
    the sign class, then the exponent, then the mantissa. *)
Definition float_rank (x : spec_float) : Z * Z * Z :=
  match x with
  | S754_infinity true => (-2, 0, 0)
  | S754_finite true m e => (-1, - e, - Zpos m)
  | S754_zero _ => (0, 0, 0)
  | S754_nan => (0, 0, 0)
  | S754_finite false m e => (1, e, Zpos m)
  | S754_infinity false => (2, 0, 0)
  end%Z.

Definition rank_le (r1 r2 : Z * Z * Z) : Prop :=
  (r1.1.1 < r2.1.1 \/
   (r1.1.1 = r2.1.1 /\
    (r1.1.2 < r2.1.2 \/ (r1.1.2 = r2.1.2 /\ r1.2 <= r2.2))))%Z.

(** The exponent a float64 operation rounds to, for a result of [e] binary
    digits above the binary point: 53 digits are kept, down to the smallest
    subnormal. *)
Definition fexp64 (e : Z) : Z := Z.max (e - 53) (-1074).

(** [float_below B x]: [x] is a zero, or a positive finite float below
    [2 ^ B]. *)
Definition float_below (B : Z) (x : spec_float) : Prop :=
  match x with
  | S754_zero _ => True
  | S754_finite false m e => (Zpos (digits2_pos m) + e <= B)%Z
  | _ => False
  end.

Definition is_zero (x : spec_float) : bool :=
  match x with S754_zero _ => true | _ => false end.

(** What [get_ucb] needs of the math library at a parent with [pv] visits:
    from two visits on, [np.log pv] is a positive finite float below
    [2 ^ 10]. *)
Definition log_regular `{Libm} (pv : nat) : Prop :=
  2 <= pv ->
  exists m e, np_log (Z.of_nat pv) = S754_finite false m e /\
              (Zpos (digits2_pos m) + e <= 10)%Z.

(** ** Trees built by calls that return *)

Section Built.
Context `{G : Game} `{L : Libm}.

(** One call of a mutating method that returns. *)
Inductive returns : heap -> heap -> Prop :=
| returns_expand h n h' r :
    expand n h = (h', Ok r) -> returns h h'
| returns_backpropagate fuel h n w h' :
    backpropagate fuel n w h = (h', Ok tt) -> returns h h'
| returns_select fuel h n c h' r :
    select fuel n c h = (h', Ok r) -> returns h h'.

(** Heaps built by constructing roots and calling methods that return. *)
Inductive built : heap -> Prop :=
| built_empty : built []
| built_root h gs : built h -> built (h ++ [new_node gs None None])
| built_step h h' : built h -> returns h h' -> built h'.

(** No node has more visits than its parent. *)
Definition ordered (h : heap) : Prop :=
  forall c cd p pd,
    h !! c = Some cd -> parent cd = Some p -> h !! p = Some pd ->
    visits cd <= visits pd.

End Built.

Section Rest.
Context `{G : Game} `{L : Libm}.

Definition get_move_from_heuristic_rollout_strategy `{!RolloutGame}
    (rollout_state : GameState) : Move :=
  get_heuristic_move rollout_state.

(** [np.random.randint 0] raises [ValueError]. *)
Definition get_move_from_simple_rollout_strategy `{!Randint}
    (rollout_state : GameState) : outcome Move :=
  let possible_moves := get_valid_moves rollout_state in
  match length possible_moves with
  | 0 => Raise ValueError
  | S _ =>
      match possible_moves !! randint (length possible_moves) with
      | Some move => Ok move
      | None => Raise IndexError
      end
  end.

(** The loop of [rollout]; one unit of [fuel] is one evaluation of the loop
    condition.  The value returned is [rollout_state.winner], which is [None]
    when the final state names no winner. *)
Fixpoint rollout_loop `{!RolloutGame} (fuel : nat) (rollout_state : GameState)
    : outcome (option Player) :=
  match fuel with
  | 0 => Stuck
  | S fuel' =>
      if is_game_over rollout_state then Ok (winner rollout_state)
      else
        let move := get_move_from_heuristic_rollout_strategy rollout_state in
        rollout_loop fuel' (make_move rollout_state move)
  end.

Definition rollout `{!RolloutGame} (fuel : nat) (n : nat) : R (option Player) :=
  get nd <- deref n ;
  fun _ => rollout_loop fuel (game_state nd).

(** The state after [k] heuristic moves. *)
Fixpoint playout `{!RolloutGame} (k : nat) (s : GameState) : GameState :=
  match k with
  | 0 => s
  | S k' => playout k' (make_move s (get_heuristic_move s))
  end.

Definition __str__ `{!Render} (n : nat) : R string :=
  get nd <- deref n ;
  get wr <- win_ratio n ;
  get fe <- is_fully_expanded n ;
  rret (render n (action nd) (visits nd) wr fe (children nd)).

(** A driver that calls [expand] on the same node [k] times. *)
Fixpoint expand_times (k : nat) (n : nat) : M unit :=
  match k with
  | 0 => ret tt
  | S k' => run expand n ; expand_times k' n
  end.

(** [sum (wins.values ())]. *)
Definition total_wins (nd : node) : nat :=
  map_fold (fun (_ : Player) (v acc : nat) => v + acc) 0 (wins nd).

(** A node as it may look later: same state and links, children added at the
    end, untried actions taken off the end, counters no lower. *)
Definition node_grows (nd nd' : node) : Prop :=
  game_state nd' = game_state nd /\ parent nd' = parent nd /\
  action nd' = action nd /\
  children nd `prefix_of` children nd' /\
  untried_actions nd' `prefix_of` untried_actions nd /\
  visits nd <= visits nd' /\
  (forall k v, wins nd !! k = Some v -> exists v', wins nd' !! k = Some v' /\ v <= v').

Definition heap_grows (h h' : heap) : Prop :=
  forall n nd, h !! n = Some nd -> exists nd', h' !! n = Some nd' /\ node_grows nd nd'.

(** Parent and child links mirror each other, and no child is listed twice. *)
Record linked (h : heap) : Prop := {
  linked_nodup : forall n nd, h !! n = Some nd -> NoDup (children nd);
  linked_down : forall n nd c,
    h !! n = Some nd -> c ∈ children nd ->
    exists cd, h !! c = Some cd /\ parent cd = Some n;
  linked_up : forall c cd p,
    h !! c = Some cd -> parent cd = Some p ->
    exists pd, h !! p = Some pd /\ c ∈ children pd;
}.

(** The children of a node, in order, are the moves taken off the back of
    the valid moves, last move first. *)
Definition expansion_record (h : heap) (nd : node) : Prop :=
  exists tried,
    get_valid_moves (game_state nd) = untried_actions nd ++ tried /\
    Forall2 (fun c a => exists cd, h !! c = Some cd /\ action cd = Some a /\
                                   game_state cd = make_move (game_state nd) a)
            (children nd) (reverse tried).

End Rest.

(** ** More of the take-away game, and a game that never ends *)

Module ToyMore.
Import Toy.

#[export] Instance rollout_game : RolloutGame := {|
  is_game_over := fun gs => bool_decide (fst gs = 0);
  get_heuristic_move := fun _ => 1;
|}.

#[export] Instance first_move : Randint := {| randint := fun _ => 0 |}.

#[export] Instance renderer : Render := {|
  render := fun _ _ _ _ _ _ => EmptyString;
|}.

(** One position, one move that leads back to it, never a winner. *)
Definition endless : Game := {|
  GameState := unit;
  Move := unit;
  Player := nat;
  OnlyDrawPlayer := 0;
  get_valid_moves := fun _ => [tt];
  make_move := fun _ _ => tt;
  winner := fun _ => None;
  current_player := fun _ => 1;
  players := fun _ => [1; 2];
|}.

Definition endless_rollout : @RolloutGame endless :=
  @Build_RolloutGame endless (fun _ => false) (fun _ => tt).

(** A position without a winner and without a move. *)
Definition stalemate : Game := {|
  GameState := unit;
  Move := unit;
  Player := nat;
  OnlyDrawPlayer := 0;
  get_valid_moves := fun _ => [];
  make_move := fun _ _ => tt;
  winner := fun _ => None;
  current_player := fun _ => 1;
  players := fun _ => [1; 2];
|}.

(** After [h_once], a rollout won by player 2, credited from node 2: both
    children of the root are visited. *)
Definition h_both : heap := fst (backpropagate (G:=game) 5 2 2 h_once).

(** The UCB values of the root's children, where they are all defined. *)
Definition ucbs_of_root (h : heap) : list spec_float :=
  match rmap (fun child => get_ucb child one) [1; 2] h with
  | Ok us => us
  | _ => []
  end.

(** The largest finite float64. *)
Definition huge : spec_float := S754_finite false 9007199254740991 971.

(** After [h_once], two more rollouts won by player 1, credited from the
    root itself: three visits on the root, one on node 1, none on node 2. *)
Definition h_root_thrice : heap :=
  fst (backpropagate (G:=game) 5 0 1 (fst (backpropagate (G:=game) 5 0 1 h_once))).

End ToyMore.

(** * Properties *)

Section Facts.
Context `{G : Game} `{L : Libm}.
Implicit Types (h : heap) (nd pd cd : node) (n m p : nat).

(** ** Lists and the heap *)

Lemma pop_nil {A} : pop (@nil A) = None.
Proof. reflexivity. Qed.

Lemma pop_snoc {A} (us : list A) (a : A) : pop (us ++ [a]) = Some (us, a).
Proof. unfold pop. by rewrite last_snoc, removelast_last. Qed.

Lemma pop_None {A} (l : list A) : pop l = None -> l = [].
Proof.
  unfold pop. destruct (last l) eqn:E; [done|].
  intros _. by apply last_None.
Qed.

Lemma pop_Some {A} (l us : list A) (a : A) : pop l = Some (us, a) -> l = us ++ [a].
Proof.
  destruct l as [|x l] using rev_ind; [done|].
  rewrite pop_snoc. by intros [= -> ->].
Qed.

Lemma deref_Some h n nd : h !! n = Some nd -> deref n h = Ok nd.
Proof. unfold deref. by intros ->. Qed.

(** ** [expand] *)

Lemma expand_eq h n nd us a :
  h !! n = Some nd ->
  untried_actions nd = us ++ [a] ->
  expand n h =
    (<[n := with_children (with_untried_actions nd us) (children nd ++ [length h])]> h
       ++ [new_node (make_move (game_state nd) a) (Some n) (Some a)],
     Ok (length h)).
Proof.
  intros Hn Hu. pose proof (lookup_lt_Some _ _ _ Hn) as Hlt.
  unfold expand, bind, read. rewrite (deref_Some _ _ _ Hn), Hu, pop_snoc.
  cbn [store alloc ret]. unfold deref.
  rewrite lookup_app_l by (by rewrite length_insert).
  rewrite list_lookup_insert_eq by done.
  rewrite length_insert. cbn [children with_untried_actions].
  f_equal. rewrite insert_app_l by (by rewrite length_insert).
  by rewrite list_insert_insert_eq.
Qed.

Lemma expand_empty h n nd :
  h !! n = Some nd -> untried_actions nd = [] -> expand n h = (h, Raise IndexError).
Proof.
  intros Hn Hu. unfold expand, bind, read.
  by rewrite (deref_Some _ _ _ Hn), Hu.
Qed.

(** C5: [expand] on a node with untried actions pops the last one, applies
    it to the node's game state, allocates a child holding the new state,
    the expanded node as parent and the popped action, appends the child to
    [children] and returns it; [untried_actions] loses exactly its last
    entry and [children] gains exactly one. *)
Theorem expand_creates_child h n nd us a :
  h !! n = Some nd ->
  untried_actions nd = us ++ [a] ->
  exists h' child cd nd',
    expand n h = (h', Ok child) /\
    h !! child = None /\
    h' !! child = Some cd /\
    game_state cd = make_move (game_state nd) a /\
    parent cd = Some n /\
    action cd = Some a /\
    h' !! n = Some nd' /\
    untried_actions nd' = us /\
    children nd' = children nd ++ [child] /\
    S (length (untried_actions nd')) = length (untried_actions nd) /\
    length (children nd') = S (length (children nd)) /\
    length h' = S (length h) /\
    (forall m, m <> n -> m <> child -> h' !! m = h !! m).
Proof.
  intros Hn Hu. pose proof (lookup_lt_Some _ _ _ Hn) as Hlt.
  eexists _, _, _, _. split; [by apply expand_eq|].
  split; [by apply lookup_ge_None|].
  split.
  { rewrite lookup_app_r by (by rewrite length_insert).
    by rewrite length_insert, Nat.sub_diag. }
  do 3 (split; [done|]).
  split.
  { rewrite lookup_app_l by (by rewrite length_insert).
    by apply list_lookup_insert_eq. }
  split; [done|]. split; [done|].
  split; [by rewrite Hu, length_app, Nat.add_1_r|].
  split; [cbn; by rewrite length_app, Nat.add_1_r|].
  split; [by rewrite length_app, length_insert, Nat.add_1_r|].
  intros m Hmn Hmc.
  destruct (decide (m < length h)) as [Hm|Hm].
  - rewrite lookup_app_l by (by rewrite length_insert).
    by rewrite list_lookup_insert_ne.
  - rewrite !lookup_ge_None_2; [done|lia|].
    rewrite length_app, length_insert. cbn. lia.
Qed.

(** C7: [expand] on a node whose [untried_actions] is empty raises (the
    [IndexError] of [list.pop]) and neither creates a node nor changes the
    heap. *)
Theorem expand_exhausted_fails h n nd :
  h !! n = Some nd ->
  untried_actions nd = [] ->
  expand n h = (h, Raise IndexError).
Proof. apply expand_empty. Qed.

(** ** [win_ratio] *)

(** C4: on a node with a parent, [win_ratio] is [+infinity] when the node
    is unvisited and otherwise the node's win count of the player to move in
    the parent's state, divided by the node's visits. *)
Theorem win_ratio_non_root h n nd p pd :
  h !! n = Some nd ->
  parent nd = Some p ->
  h !! p = Some pd ->
  (visits nd = 0 -> win_ratio n h = Ok F64.inf) /\
  (forall w, 0 < visits nd ->
             wins nd !! current_player (game_state pd) = Some w ->
             win_ratio n h = Ok (F64.truediv (Z.of_nat w) (Z.of_nat (visits nd)))).
Proof.
  intros Hn Hp Hpd. unfold win_ratio, rbind. rewrite (deref_Some _ _ _ Hn).
  split.
  - intros ->. by rewrite bool_decide_eq_true_2.
  - intros w Hv Hw. rewrite bool_decide_eq_false_2 by lia.
    by rewrite Hp, (deref_Some _ _ _ Hpd), Hw.
Qed.

(** C9: on a root, [win_ratio] raises (the [AttributeError] of reading
    [game_state] off [None]) as soon as the root has been visited, and is
    [+infinity] while it has not. *)
Theorem win_ratio_root h n nd :
  h !! n = Some nd ->
  parent nd = None ->
  (0 < visits nd -> win_ratio n h = Raise AttributeError) /\
  (visits nd = 0 -> win_ratio n h = Ok F64.inf).
Proof.
  intros Hn Hp. unfold win_ratio, rbind. rewrite (deref_Some _ _ _ Hn).
  split.
  - intros Hv. rewrite bool_decide_eq_false_2 by lia. by rewrite Hp.
  - intros ->. by rewrite bool_decide_eq_true_2.
Qed.

(** ** [backpropagate] *)

Lemma backpropagate_unknown_eq fuel h n nd w :
  h !! n = Some nd ->
  wins nd !! w = None ->
  backpropagate (S fuel) n w h =
    (<[n := with_visits nd (visits nd + 1)]> h, Raise KeyError).
Proof.
  intros Hn Hw. pose proof (lookup_lt_Some _ _ _ Hn) as Hlt.
  cbn [backpropagate]. unfold bind, read. rewrite (deref_Some _ _ _ Hn).
  cbn [store]. unfold deref. rewrite list_lookup_insert_eq by done.
  cbn [wins with_visits]. by rewrite Hw.
Qed.

(** C10: when the winner is not a key of the node's [wins], the
    [KeyError] comes after the node's [visits] has been incremented: the
    heap left behind differs from the initial one exactly in that node's
    [visits], one higher; its [wins] and all other nodes are as before. *)
Theorem backpropagate_unknown_not_atomic fuel h n nd w :
  h !! n = Some nd ->
  wins nd !! w = None ->
  backpropagate (S fuel) n w h =
    (<[n := with_visits nd (visits nd + 1)]> h, Raise KeyError).
Proof. apply backpropagate_unknown_eq. Qed.

(** C8: when the winner is not a key of the node's [wins],
    [backpropagate] raises [KeyError], and in the heap left behind every
    node has the [wins] mapping it had before: no key is inserted, in this
    node or in any other. *)
Theorem backpropagate_unknown_fails fuel h n nd w :
  h !! n = Some nd ->
  wins nd !! w = None ->
  exists h',
    backpropagate (S fuel) n w h = (h', Raise KeyError) /\
    length h' = length h /\
    forall m md, h !! m = Some md ->
                 exists md', h' !! m = Some md' /\ wins md' = wins md.
Proof.
  intros Hn Hw. eexists. split; [by apply backpropagate_unknown_eq|].
  split; [by rewrite length_insert|].
  intros m md Hm. destruct (decide (m = n)) as [->|Hne].
  - rewrite list_lookup_insert_eq by (by eapply lookup_lt_Some).
    eexists. split; [done|]. cbn. congruence.
  - rewrite list_lookup_insert_ne by done. eauto.
Qed.

(** ** Reachable heaps are well formed *)

Lemma init_wins_keys_aux (l : list Player) (ws : gmap Player nat) (k : Player) :
  is_Some (foldl (fun (acc : gmap Player nat) (q : Player) => <[q := 0]> acc) ws l !! k)
  <-> k ∈ l \/ is_Some (ws !! k).
Proof.
  revert ws. induction l as [|q l IH]; intros ws; cbn [foldl].
  - rewrite elem_of_nil. tauto.
  - rewrite IH, elem_of_cons, lookup_insert_is_Some.
    destruct (decide (q = k)) as [->|Hne]; [tauto|].
    split; [intros [?|[[]|[_ ?]]]|intros [[|]|?]]; tauto || congruence.
Qed.

Lemma new_node_keys gs (po : option nat) ao : keys_fixed (new_node gs po ao).
Proof.
  intros k. cbn [new_node wins game_state]. unfold init_wins.
  rewrite lookup_insert_is_Some, init_wins_keys_aux, elem_of_cons, lookup_empty.
  destruct (decide (OnlyDrawPlayer = k)) as [->|]; [tauto|].
  split; [intros [?|[? [?|[]%is_Some_None]]]; tauto|].
  intros [?|?]; [by left|]. right. tauto.
Qed.

Lemma new_node_moves gs (po : option nat) ao : moves_accounted (new_node gs po ao).
Proof. exists []. cbn. by rewrite app_nil_r. Qed.

Lemma child_of_weaken h h' n nd nd' c :
  child_of h n nd c ->
  game_state nd' = game_state nd ->
  (forall cd, h !! c = Some cd ->
              exists cd', h' !! c = Some cd' /\ parent cd' = parent cd /\
                          game_state cd' = game_state cd) ->
  child_of h' n nd' c.
Proof.
  intros (cd & a & Hc & Hlt & Hp & Ha & Hg) Hgs Hh'.
  destruct (Hh' _ Hc) as (cd' & Hc' & Hp' & Hg').
  exists cd', a. rewrite Hgs. repeat split; try done; congruence.
Qed.

Lemma well_formed_nil : well_formed [].
Proof. split; intros ? ? ; by rewrite ?lookup_nil. Qed.

Lemma lookup_snoc_cases {A} (l : list A) (x y : A) m :
  (l ++ [x]) !! m = Some y ->
  (m < length l /\ l !! m = Some y) \/ (m = length l /\ y = x).
Proof.
  intros H. destruct (decide (m < length l)) as [Hlt|Hge].
  - left. by rewrite lookup_app_l in H.
  - right. rewrite lookup_app_r in H by lia.
    destruct (m - length l) as [|k] eqn:E; [|by destruct k].
    injection H as <-. split; [lia|done].
Qed.

Lemma well_formed_root h gs :
  well_formed h -> well_formed (h ++ [new_node gs None None]).
Proof.
  intros [Hp Hm Hc Hk]. split.
  - intros n nd p [[_ Hn]|[_ ->]]%lookup_snoc_cases; [by eapply Hp|done].
  - intros n nd [[_ Hn]|[_ ->]]%lookup_snoc_cases;
      [by eapply Hm|apply new_node_moves].
  - intros n nd c [[_ Hn]|[_ ->]]%lookup_snoc_cases Hin; [|by apply elem_of_nil in Hin].
    eapply child_of_weaken; [by eapply Hc|done|].
    intros cd Hcd. exists cd. by rewrite (lookup_app_l_Some _ _ _ _ Hcd).
  - intros n nd [[_ Hn]|[_ ->]]%lookup_snoc_cases;
      [by eapply Hk|apply new_node_keys].
Qed.

Lemma expand_cases h n h' o :
  expand n h = (h', o) ->
  (h' = h /\ forall r, o <> Ok r) \/
  exists nd us a, h !! n = Some nd /\ untried_actions nd = us ++ [a] /\
                  h' = expanded h n nd us a /\ o = Ok (length h).
Proof.
  intros He. destruct (h !! n) as [nd|] eqn:Hn.
  - destruct (pop (untried_actions nd)) as [[us a]|] eqn:Hpop.
    + apply pop_Some in Hpop. right. exists nd, us, a.
      rewrite (expand_eq _ _ _ _ _ Hn Hpop) in He. by injection He as <- <-.
    + apply pop_None in Hpop. rewrite (expand_empty _ _ _ Hn Hpop) in He.
      left. by injection He as <- <-.
  - left. unfold expand, bind, read, deref in He. rewrite Hn in He.
    by injection He as <- <-.
Qed.

Lemma expanded_lookup h n nd us a m md :
  h !! n = Some nd ->
  expanded h n nd us a !! m = Some md ->
  (m = n /\ md = with_children (with_untried_actions nd us) (children nd ++ [length h])) \/
  (m <> n /\ h !! m = Some md) \/
  (m = length h /\ md = new_node (make_move (game_state nd) a) (Some n) (Some a)).
Proof.
  intros Hn Hm. pose proof (lookup_lt_Some _ _ _ Hn) as Hlt.
  apply lookup_snoc_cases in Hm as [[Hm1 Hm2]|[-> ->]].
  - destruct (decide (m = n)) as [->|Hne].
    + rewrite list_lookup_insert_eq in Hm2 by done. left. by injection Hm2 as <-.
    + rewrite list_lookup_insert_ne in Hm2 by done. right. by left.
  - right. right. by rewrite length_insert.
Qed.

Lemma expanded_keeps h n nd us a m md :
  h !! n = Some nd ->
  h !! m = Some md ->
  exists md', expanded h n nd us a !! m = Some md' /\ parent md' = parent md /\
              game_state md' = game_state md.
Proof.
  intros Hn Hm. pose proof (lookup_lt_Some _ _ _ Hn) as Hlt.
  pose proof (lookup_lt_Some _ _ _ Hm) as Hlt'.
  unfold expanded. rewrite lookup_app_l by (by rewrite length_insert).
  destruct (decide (m = n)) as [->|Hne].
  - rewrite list_lookup_insert_eq by done. eexists. split; [done|].
    cbn. split; congruence.
  - rewrite list_lookup_insert_ne by done. eauto.
Qed.

Lemma well_formed_expanded h n nd us a :
  well_formed h ->
  h !! n = Some nd ->
  untried_actions nd = us ++ [a] ->
  well_formed (expanded h n nd us a).
Proof.
  intros [Hp Hm Hc Hk] Hn Hu. pose proof (lookup_lt_Some _ _ _ Hn) as Hlt.
  destruct (Hm _ _ Hn) as (tried & Hv & Hlen).
  assert (a ∈ get_valid_moves (game_state nd)) as Ha.
  { rewrite Hv, Hu. set_solver. }
  split.
  - intros m md p [[-> ->]|[[_ Hmd]|[-> ->]]]%expanded_lookup Hpar; try done.
    + by eapply Hp.
    + by eapply Hp.
    + by injection Hpar as <-.
  - intros m md [[-> ->]|[[_ Hmd]|[-> ->]]]%expanded_lookup; try done.
    + exists (a :: tried). cbn. split.
      * by rewrite Hv, Hu, <- app_assoc.
      * rewrite length_app. cbn. lia.
    + by eapply Hm.
    + apply new_node_moves.
  - intros m md c [[-> ->]|[[Hne Hmd]|[-> ->]]]%expanded_lookup Hin; try done.
    + cbn in Hin. apply elem_of_app in Hin as [Hin|Hin%list_elem_of_singleton]; [|subst c].
      * eapply child_of_weaken; [by eapply Hc|done|].
        intros cd Hcd. by eapply expanded_keeps.
      * exists (new_node (make_move (game_state nd) a) (Some n) (Some a)), a.
        repeat split; try done.
        unfold expanded. rewrite lookup_app_r by (by rewrite length_insert).
        by rewrite length_insert, Nat.sub_diag.
    + eapply child_of_weaken; [by eapply Hc|done|].
      intros cd Hcd. by eapply expanded_keeps.
    + by apply elem_of_nil in Hin.
  - intros m md [[-> ->]|[[_ Hmd]|[-> ->]]]%expanded_lookup; try done.
    + by apply (Hk _ _ Hn).
    + by eapply Hk.
    + apply new_node_keys.
Qed.

Lemma same_shape_refl nd : same_shape nd nd.
Proof. by repeat split. Qed.

Lemma same_shape_trans nd1 nd2 nd3 :
  same_shape nd1 nd2 -> same_shape nd2 nd3 -> same_shape nd1 nd3.
Proof.
  intros (?&?&?&?&?&Hk1) (?&?&?&?&?&Hk2).
  repeat split; try congruence; intros ?; [by apply Hk1, Hk2|by apply Hk2, Hk1].
Qed.

Lemma counters_only_refl h : counters_only h h.
Proof. split; [done|]. intros m md ?. exists md. split; [done|apply same_shape_refl]. Qed.

Lemma counters_only_trans h1 h2 h3 :
  counters_only h1 h2 -> counters_only h2 h3 -> counters_only h1 h3.
Proof.
  intros [Hl1 H1] [Hl2 H2]. split; [congruence|].
  intros m md Hm. destruct (H1 _ _ Hm) as (md' & Hm' & Hs1).
  destruct (H2 _ _ Hm') as (md'' & Hm'' & Hs2).
  exists md''. split; [done|]. by eapply same_shape_trans.
Qed.

Lemma counters_only_insert h n nd nd' :
  h !! n = Some nd -> same_shape nd nd' -> counters_only h (<[n := nd']> h).
Proof.
  intros Hn Hs. pose proof (lookup_lt_Some _ _ _ Hn) as Hlt.
  split; [by rewrite length_insert|].
  intros m md Hm. destruct (decide (m = n)) as [->|Hne].
  - rewrite list_lookup_insert_eq by done. exists nd'. split; [done|]. congruence.
  - rewrite list_lookup_insert_ne by done. exists md. split; [done|apply same_shape_refl].
Qed.

Lemma backpropagate_frame fuel h n nd w k :
  h !! n = Some nd ->
  wins nd !! w = Some k ->
  backpropagate (S fuel) n w h =
    match parent nd with
    | None => (<[n := credit w k nd]> h, Ok tt)
    | Some p => backpropagate fuel p w (<[n := credit w k nd]> h)
    end.
Proof.
  intros Hn Hw. pose proof (lookup_lt_Some _ _ _ Hn) as Hlt.
  cbn [backpropagate]. unfold bind, read. rewrite (deref_Some _ _ _ Hn).
  cbn [store]. unfold deref. rewrite list_lookup_insert_eq by done.
  cbn [wins with_visits]. rewrite Hw. rewrite list_insert_insert_eq.
  change (parent (with_visits nd (visits nd + 1))) with (parent nd).
  by destruct (parent nd).
Qed.

Lemma credit_same_shape w k nd : wins nd !! w = Some k -> same_shape nd (credit w k nd).
Proof.
  intros Hw. repeat split; try done; cbn; rewrite lookup_insert_is_Some.
  - intros [E|[_ ?]]; [subst; rewrite Hw; by eexists|done].
  - intros ?. destruct (decide (w = k0)); [by left|by right].
Qed.

Lemma backpropagate_counters_only fuel h n w h' o :
  backpropagate fuel n w h = (h', o) -> counters_only h h'.
Proof.
  revert h n. induction fuel as [|fuel IH]; intros h n Hb.
  - injection Hb as <- <-. apply counters_only_refl.
  - destruct (h !! n) as [nd|] eqn:Hn.
    + destruct (wins nd !! w) as [k|] eqn:Hw.
      * rewrite (backpropagate_frame _ _ _ _ _ _ Hn Hw) in Hb.
        pose proof (counters_only_insert _ _ _ _ Hn (credit_same_shape _ _ _ Hw)) as Hc.
        destruct (parent nd) as [p|].
        -- eapply counters_only_trans; [exact Hc|by eapply IH].
        -- by injection Hb as <- <-.
      * rewrite (backpropagate_unknown_eq _ _ _ _ _ Hn Hw) in Hb.
        injection Hb as <- <-. eapply counters_only_insert; [done|].
        by repeat split.
    + cbn [backpropagate] in Hb. unfold bind, read, deref in Hb.
      rewrite Hn in Hb. injection Hb as <- <-. apply counters_only_refl.
Qed.

Lemma well_formed_counters_only h h' :
  well_formed h -> counters_only h h' -> well_formed h'.
Proof.
  intros [Hp Hm Hc Hk] [Hlen Hs].
  assert (forall m md', h' !! m = Some md' ->
                        exists md, h !! m = Some md /\ same_shape md md') as Hback.
  { intros m md' Hm'. pose proof (lookup_lt_Some _ _ _ Hm') as Hlt.
    rewrite Hlen in Hlt. apply lookup_lt_is_Some in Hlt as [md Hmd].
    destruct (Hs _ _ Hmd) as (md2 & Hm2 & Hsh). exists md. split; [done|]. congruence. }
  split.
  - intros n nd' p Hn Hpar. destruct (Hback _ _ Hn) as (nd & Hnd & (_&Hp'&_)).
    eapply Hp; [done|congruence].
  - intros n nd' Hn. destruct (Hback _ _ Hn) as (nd & Hnd & (Hg&_&_&Hch&Hu&_)).
    destruct (Hm _ _ Hnd) as (tried & Hv & Hl). exists tried. split; congruence.
  - intros n nd' c Hn Hin. destruct (Hback _ _ Hn) as (nd & Hnd & (Hg&_&_&Hch&_&_)).
    rewrite Hch in Hin. eapply child_of_weaken; [by eapply Hc|done|].
    intros cd Hcd. destruct (Hs _ _ Hcd) as (cd' & Hcd' & (?&?&_)). eauto.
  - intros n nd' Hn k. destruct (Hback _ _ Hn) as (nd & Hnd & (Hg&_&_&_&_&Hkk)).
    rewrite Hkk, Hg. by apply (Hk _ _ Hnd).
Qed.

Lemma select_heap fuel h n c h' o :
  select fuel n c h = (h', o) ->
  h' = h \/ exists m o', expand m h = (h', o').
Proof.
  revert n. induction fuel as [|fuel IH]; intros n Hs.
  - left. by injection Hs as <- <-.
  - cbn [select] in Hs. unfold bind, read, ret in Hs.
    destruct (is_terminal n h) as [[]| |];
      [left; by injection Hs as <- <-| |left; by injection Hs as <- <-..].
    destruct (is_fully_expanded n h) as [[]| |]; cbn [negb] in Hs;
      [| |left; by injection Hs as <- <-..].
    + destruct (select_child_with_max_ucb n c h) as [ch| |];
        [|left; by injection Hs as <- <-..].
      by eapply IH.
    + right. eauto.
Qed.

Lemma well_formed_expand h n h' o :
  well_formed h -> expand n h = (h', o) -> well_formed h'.
Proof.
  intros Hwf [[-> _]|(nd & us & a & Hn & Hu & -> & _)]%expand_cases; [done|].
  by apply well_formed_expanded.
Qed.

Lemma well_formed_step h h' : well_formed h -> step h h' -> well_formed h'.
Proof.
  intros Hwf Hstep. destruct Hstep as [h n h' o He|fuel h n w h' o Hb|fuel h n c h' o Hs].
  - eapply well_formed_expand; eauto.
  - eapply well_formed_counters_only; [done|]. eapply backpropagate_counters_only; eauto.
  - apply select_heap in Hs as [->|(m & o' & He)]; [done|].
    eapply well_formed_expand; eauto.
Qed.

Lemma reachable_well_formed h : reachable h -> well_formed h.
Proof.
  induction 1 as [|h gs _ IH|h h' _ IH Hstep].
  - apply well_formed_nil.
  - by apply well_formed_root.
  - by eapply well_formed_step.
Qed.

(** C6: in every heap the driver can build, a node has at most as many
    children as its game state has valid moves, and exactly as many just
    when [is_fully_expanded] holds. *)
Theorem children_bounded_by_moves h n nd :
  reachable h ->
  h !! n = Some nd ->
  length (children nd) <= length (get_valid_moves (game_state nd)) /\
  (length (children nd) = length (get_valid_moves (game_state nd))
   <-> is_fully_expanded n h = Ok true).
Proof.
  intros Hr Hn. destruct (wf_moves _ (reachable_well_formed _ Hr) _ _ Hn) as (tried & Hv & Hl).
  split.
  - rewrite Hv, length_app. lia.
  - unfold is_fully_expanded, rbind. rewrite (deref_Some _ _ _ Hn). unfold rret.
    split.
    + intros E. by rewrite bool_decide_eq_true_2.
    + intros [= E]. by apply bool_decide_eq_true_1 in E.
Qed.

(** ** [backpropagate] along the path to the root *)

Lemma on_path_le h n m : parent_below h -> on_path h n m -> m <= n.
Proof.
  intros Hpb. induction 1 as [|n nd p m Hn Hp _ IH]; [done|].
  specialize (Hpb _ _ _ Hn Hp). lia.
Qed.

Lemma on_path_inv h n nd m :
  h !! n = Some nd ->
  on_path h n m ->
  m = n \/ exists p, parent nd = Some p /\ on_path h p m.
Proof.
  intros Hn Hpath. inversion Hpath as [|? nd' p ? Hn' Hp Hrest]; subst; [by left|].
  right. exists p. split; [congruence|done].
Qed.

Section SameParents.
Variables h h1 : heap.
Hypothesis same_parents : forall m, parent <$> h1 !! m = parent <$> h !! m.

Lemma same_parents_lookup m md (po : option nat) :
  h !! m = Some md -> parent md = po ->
  exists md1, h1 !! m = Some md1 /\ parent md1 = po.
Proof.
  intros Hm Hp. specialize (same_parents m). rewrite Hm in same_parents.
  destruct (h1 !! m) as [md1|]; [|done].
  injection same_parents as E. exists md1. split; [done|congruence].
Qed.

Lemma same_parents_on_path n m : on_path h n m -> on_path h1 n m.
Proof.
  induction 1 as [|n nd p m Hn Hp _ IH]; [constructor|].
  destruct (same_parents_lookup _ _ _ Hn Hp) as (nd1 & Hn1 & Hp1).
  by eapply on_path_up.
Qed.

Lemma same_parents_depth n d : depth h n d -> depth h1 n d.
Proof.
  induction 1 as [n nd Hn Hp|n nd p d Hn Hp _ IH].
  - destruct (same_parents_lookup _ _ _ Hn Hp) as (nd1 & Hn1 & Hp1).
    by eapply depth_root.
  - destruct (same_parents_lookup _ _ _ Hn Hp) as (nd1 & Hn1 & Hp1).
    by eapply depth_child.
Qed.

Lemma same_parents_below : parent_below h -> parent_below h1.
Proof.
  intros Hpb n nd1 p Hn1 Hp1. specialize (same_parents n).
  rewrite Hn1 in same_parents. destruct (h !! n) as [nd|] eqn:Hn; [|done].
  injection same_parents as E. eapply Hpb; [done|congruence].
Qed.
End SameParents.

Lemma credit_same_parents h n nd w k :
  h !! n = Some nd ->
  forall m, parent <$> <[n := credit w k nd]> h !! m = parent <$> h !! m.
Proof.
  intros Hn m. pose proof (lookup_lt_Some _ _ _ Hn) as Hlt.
  destruct (decide (m = n)) as [->|Hne].
  - by rewrite list_lookup_insert_eq, Hn.
  - by rewrite list_lookup_insert_ne.
Qed.

Lemma credit_credited w k nd : wins nd !! w = Some k -> credited w nd (credit w k nd).
Proof. intros Hw. repeat split; try done. by exists k. Qed.

(** C3: on a heap where nodes come after their parents, calling
    [backpropagate] on a node at depth [d], with more than [d] frames to
    spare and a winner that is a key of [wins] on the node and its
    ancestors, returns normally (it stops at the root); afterwards the node
    and each of its ancestors has exactly one more visit and one more win
    for the winner, and every other node is unchanged. *)
Theorem backpropagate_credits_path fuel h n d w :
  parent_below h ->
  depth h n d ->
  d < fuel ->
  (forall m md, on_path h n m -> h !! m = Some md -> is_Some (wins md !! w)) ->
  exists h',
    backpropagate fuel n w h = (h', Ok tt) /\
    length h' = length h /\
    forall m md, h !! m = Some md ->
                 exists md', h' !! m = Some md' /\
                             (on_path h n m -> credited w md md') /\
                             (~ on_path h n m -> md' = md).
Proof.
  revert fuel h n.
  induction d as [|d IH]; intros fuel h n Hpb Hd Hfuel Hkeys;
    inversion Hd as [? nd Hn Hp|? nd p ? Hn Hp Hd']; subst;
    (destruct fuel as [|fuel]; [lia|]);
    destruct (Hkeys n nd (on_path_here _ _) Hn) as [k Hw];
    rewrite (backpropagate_frame _ _ _ _ _ _ Hn Hw), Hp;
    pose proof (lookup_lt_Some _ _ _ Hn) as Hlt.
  - eexists. split; [done|]. split; [by rewrite length_insert|].
    intros m md Hm. destruct (decide (m = n)) as [->|Hne].
    + rewrite list_lookup_insert_eq by done. eexists. split; [done|].
      assert (md = nd) as -> by congruence.
      split; [intros _; by apply credit_credited|].
      intros []. constructor.
    + rewrite list_lookup_insert_ne by done. exists md. split; [done|].
      split; [|done]. intros [?|(q & Hq & _)]%(on_path_inv _ _ _ _ Hn); congruence.
  - set (h1 := <[n := credit w k nd]> h).
    pose proof (credit_same_parents _ _ _ w k Hn) as Hsame. fold h1 in Hsame.
    assert (forall m, parent <$> h !! m = parent <$> h1 !! m) as Hsame' by done.
    pose proof (Hpb _ _ _ Hn Hp) as Hpn.
    assert (forall m, on_path h p m -> m <> n) as Hoff.
    { intros m Hm%(on_path_le _ _ _ Hpb). lia. }
    destruct (IH fuel h1 p) as (h' & Hb & Hlen & Hnodes).
    + by apply (same_parents_below h h1).
    + by apply (same_parents_depth h h1 Hsame).
    + lia.
    + intros m md1 Hpath Hm1. apply (same_parents_on_path h1 h Hsame') in Hpath.
      unfold h1 in Hm1. rewrite list_lookup_insert_ne in Hm1 by (symmetry; by apply Hoff).
      eapply Hkeys; [|done]. by eapply on_path_up.
    + exists h'. split; [done|]. split; [by rewrite Hlen; apply length_insert|].
      intros m md Hm. destruct (decide (m = n)) as [->|Hne].
      * assert (md = nd) as -> by congruence.
        destruct (Hnodes n (credit w k nd)) as (md' & Hm' & _ & Hoth).
        { by apply list_lookup_insert_eq. }
        exists md'. split; [done|]. split; [|intros []; constructor].
        intros _. rewrite Hoth; [by apply credit_credited|].
        intros Hpath%(same_parents_on_path h1 h Hsame'). by apply (Hoff n).
      * destruct (Hnodes m md) as (md' & Hm' & Hon & Hoth).
        { unfold h1. by rewrite list_lookup_insert_ne. }
        exists md'. split; [done|]. split.
        -- intros [?|(q & Hq & Hpath)]%(on_path_inv _ _ _ _ Hn); [done|].
           apply Hon. apply (same_parents_on_path h h1 Hsame).
           by replace p with q by congruence.
        -- intros Hnot. apply Hoth. intros Hpath%(same_parents_on_path h1 h Hsame').
           apply Hnot. by eapply on_path_up.
Qed.

(** ** [select] *)

Lemma argmax_from_range mp mi i l :
  F64.argmax_from mp mi i l = mi \/
  (i <= F64.argmax_from mp mi i l < i + length l).
Proof.
  revert mp mi i. induction l as [|x l IH]; intros mp mi i; cbn; [by left|].
  destruct (F64.leb x mp).
  - destruct (IH mp mi (S i)) as [?|?]; [by left|right; lia].
  - destruct (F64.is_nan x); [right; lia|].
    destruct (IH x i (S i)) as [->|?]; right; lia.
Qed.

Lemma argmax_lt l : l <> [] -> F64.argmax l < length l.
Proof.
  destruct l as [|x l]; [done|]. intros _. cbn.
  destruct (F64.is_nan x); [lia|].
  destruct (argmax_from_range x 0 1 l) as [->|?]; lia.
Qed.

Lemma rmap_Forall2 {A B} (f : A -> R B) (l : list A) h :
  (forall a, a ∈ l -> exists b, f a h = Ok b) ->
  exists bs, rmap f l h = Ok bs /\ Forall2 (fun a b => f a h = Ok b) l bs.
Proof.
  induction l as [|a l IH]; intros Hall.
  - exists []. by split.
  - destruct (Hall a) as [b Hb]; [set_solver|].
    destruct IH as (bs & Hbs & HF); [intros; apply Hall; set_solver|].
    exists (b :: bs). cbn. unfold rbind. rewrite Hb, Hbs. split; [done|by constructor].
Qed.

Lemma get_ucb_defined `{!GameContract} h n nd ch c :
  h !! n = Some nd ->
  child_of h n nd ch ->
  (forall cd, h !! ch = Some cd -> keys_fixed cd) ->
  exists u, get_ucb ch c h = Ok u.
Proof.
  intros Hn (cd & a & Hc & _ & Hp & Ha & Hg) Hk.
  assert (exists wr, win_ratio ch h = Ok wr) as [wr Hwr].
  { unfold win_ratio, rbind. rewrite (deref_Some _ _ _ Hc).
    destruct (bool_decide (visits cd = 0)); [by eexists|].
    rewrite Hp, (deref_Some _ _ _ Hn).
    destruct (proj2 (Hk _ Hc (current_player (game_state nd)))) as [k ->];
      [|by eexists].
    rewrite Hg. by apply mover_known. }
  unfold get_ucb, rbind. rewrite Hwr, (deref_Some _ _ _ Hc), Hp, (deref_Some _ _ _ Hn).
  by eexists.
Qed.

Lemma select_child_defined `{!GameContract} h n nd c :
  well_formed h ->
  h !! n = Some nd ->
  children nd <> [] ->
  exists ch, select_child_with_max_ucb n c h = Ok ch /\ ch ∈ children nd.
Proof.
  intros Hwf Hn Hne.
  destruct (rmap_Forall2 (fun child => get_ucb child c) (children nd) h)
    as (us & Hus & HF).
  { intros ch Hch. eapply get_ucb_defined; [done|by eapply wf_children|].
    intros cd Hcd. by eapply wf_keys. }
  pose proof (Forall2_length _ _ _ HF) as Hlen.
  unfold select_child_with_max_ucb, rbind. rewrite (deref_Some _ _ _ Hn), Hus.
  destruct us as [|u us]; [by destruct (children nd)|].
  destruct (lookup_lt_is_Some_2 (children nd) (F64.argmax (u :: us))) as [ch Hch].
  { rewrite Hlen. by apply argmax_lt. }
  exists ch. rewrite Hch. split; [done|]. by eapply list_elem_of_lookup_2.
Qed.

Lemma select_unfold fuel n c h :
  select (S fuel) n c h =
    match is_terminal n h with
    | Ok true => (h, Ok n)
    | Ok false =>
        match is_fully_expanded n h with
        | Ok false => expand n h
        | Ok true =>
            match select_child_with_max_ucb n c h with
            | Ok ch => select fuel ch c h
            | Raise e => (h, Raise e)
            | Stuck => (h, Stuck)
            end
        | Raise e => (h, Raise e)
        | Stuck => (h, Stuck)
        end
    | Raise e => (h, Raise e)
    | Stuck => (h, Stuck)
    end.
Proof.
  cbn [select]. unfold bind, read.
  destruct (is_terminal n h) as [[]| |]; try done.
  destruct (is_fully_expanded n h) as [[]| |]; try done.
Qed.

Lemma is_terminal_eq h n nd :
  h !! n = Some nd -> is_terminal n h = Ok (bool_decide (winner (game_state nd) <> None)).
Proof. intros Hn. unfold is_terminal, rbind. by rewrite (deref_Some _ _ _ Hn). Qed.

Lemma is_fully_expanded_eq h n nd :
  h !! n = Some nd ->
  is_fully_expanded n h =
    Ok (bool_decide (length (children nd) = length (get_valid_moves (game_state nd)))).
Proof. intros Hn. unfold is_fully_expanded, rbind. by rewrite (deref_Some _ _ _ Hn). Qed.

Lemma expand_not_full h n nd :
  well_formed h ->
  h !! n = Some nd ->
  is_fully_expanded n h = Ok false ->
  exists us a, untried_actions nd = us ++ [a].
Proof.
  intros Hwf Hn Hfe. rewrite (is_fully_expanded_eq _ _ _ Hn) in Hfe.
  injection Hfe as Hfe. apply bool_decide_eq_false_1 in Hfe.
  destruct (wf_moves _ Hwf _ _ Hn) as (tried & Hv & Hl).
  destruct (pop (untried_actions nd)) as [[us a]|] eqn:Hpop.
  - apply pop_Some in Hpop. eauto.
  - apply pop_None in Hpop. exfalso. apply Hfe. by rewrite Hv, Hpop, <- Hl.
Qed.

Lemma fresh_child_is_leaf `{!GameContract} h n nd us a :
  h !! n = Some nd ->
  let r := length h in
  let h' := expanded h n nd us a in
  ~ (is_terminal r h' = Ok false /\ is_fully_expanded r h' = Ok true).
Proof.
  intros Hn r h' [Ht Hfe]. pose proof (lookup_lt_Some _ _ _ Hn) as Hlt.
  assert (h' !! r = Some (new_node (make_move (game_state nd) a) (Some n) (Some a))) as Hr.
  { unfold h', r, expanded. rewrite lookup_app_r by (by rewrite length_insert).
    by rewrite length_insert, Nat.sub_diag. }
  rewrite (is_terminal_eq _ _ _ Hr) in Ht.
  rewrite (is_fully_expanded_eq _ _ _ Hr) in Hfe.
  injection Ht as Ht. injection Hfe as Hfe.
  apply bool_decide_eq_false_1 in Ht. apply bool_decide_eq_true_1 in Hfe.
  cbn in Ht, Hfe. symmetry in Hfe. apply length_zero_iff_nil in Hfe.
  apply (moves_exist (make_move (game_state nd) a)); [|done].
  destruct (winner _); [|done]. by destruct Ht.
Qed.

(** C1: on a heap the driver can build, for a game that keeps its contract,
    [select] returns a node (given a step budget of the number of nodes
    from the receiver on).  It walks down by [select_child_with_max_ucb]
    to the first node [m] that is terminal or not fully expanded; it returns
    [m] itself, with the heap untouched, when [m] is terminal, and otherwise
    the child that [expand] creates on [m], a node that was not in the heap
    before.  The node returned is never fully expanded and non-terminal, and
    a terminal receiver is returned as it is. *)
Theorem select_returns_leaf `{!GameContract} fuel h n nd c :
  reachable h ->
  h !! n = Some nd ->
  length h - n <= fuel ->
  exists h' r m,
    select fuel n c h = (h', Ok r) /\
    descends c h n m /\
    ((is_terminal m h = Ok true /\ r = m /\ h' = h) \/
     (is_terminal m h = Ok false /\ is_fully_expanded m h = Ok false /\
      expand m h = (h', Ok r) /\ h !! r = None)) /\
    ~ (is_terminal r h' = Ok false /\ is_fully_expanded r h' = Ok true) /\
    (is_terminal n h = Ok true -> r = n /\ h' = h).
Proof.
  intros Hwf%reachable_well_formed. revert n nd.
  induction fuel as [|fuel IH]; intros n nd Hn Hfuel;
    pose proof (lookup_lt_Some _ _ _ Hn) as Hlt; [lia|].
  rewrite select_unfold.
  pose proof (is_terminal_eq _ _ _ Hn) as Ht.
  pose proof (is_fully_expanded_eq _ _ _ Hn) as Hfe.
  destruct (bool_decide (winner (game_state nd) <> None)) eqn:Et.
  { rewrite Ht. exists h, n, n. split; [done|]. split; [constructor|].
    split; [by left|]. split; [|done]. intros [Ht' _]. congruence. }
  rewrite Ht.
  destruct (bool_decide (length (children nd) = _)) eqn:Efe; rewrite Hfe.
  - destruct (select_child_defined h n nd c Hwf Hn) as (ch & Hsel & Hch).
    { apply bool_decide_eq_true_1 in Efe. apply bool_decide_eq_false_1 in Et.
      intros Hnil. rewrite Hnil in Efe. symmetry in Efe.
      apply length_zero_iff_nil in Efe. apply (moves_exist (game_state nd)); [|done].
      destruct (winner _); [|done]. by destruct Et. }
    rewrite Hsel.
    destruct (wf_children _ Hwf _ _ _ Hn Hch) as (cd & a & Hcd & Hnc & _).
    pose proof (lookup_lt_Some _ _ _ Hcd) as Hclt.
    destruct (IH ch cd Hcd) as (h' & r & m & Hs & Hdesc & Hres & Hleaf & _); [lia|].
    exists h', r, m. split; [done|]. split; [by eapply descends_down|].
    split; [done|]. split; [done|]. intros [=].
  - destruct (expand_not_full _ _ _ Hwf Hn Hfe) as (us & a & Hu).
    rewrite (expand_eq _ _ _ _ _ Hn Hu).
    eexists _, _, n. split; [done|]. split; [constructor|].
    split.
    { right. split; [done|]. split; [done|]. split; [by apply expand_eq|].
      by apply lookup_ge_None. }
    split; [by apply fresh_child_is_leaf|]. intros [=].
Qed.

(** ** [select_child_with_max_ucb] and unvisited children *)

Lemma add_inf_top y : F64.add F64.inf y = F64.inf \/ F64.add F64.inf y = F64.nan.
Proof. destruct y as [| [] | |]; cbn; auto. Qed.

Lemma unvisited_ucb_top pv c :
  unvisited_ucb pv c = F64.inf \/ unvisited_ucb pv c = F64.nan.
Proof. apply add_inf_top. Qed.

Lemma leb_finite_inf x : F64.is_finite x = true -> F64.leb x F64.inf = true.
Proof. by destruct x as [| | |[]]. Qed.

Lemma leb_inf_finite x : F64.is_finite x = true -> F64.leb F64.inf x = false.
Proof. by destruct x as [| | |[]]. Qed.

Lemma leb_nan_l x : F64.leb F64.nan x = false.
Proof. done. Qed.

Lemma is_nan_finite x : F64.is_finite x = true -> F64.is_nan x = false.
Proof. by destruct x. Qed.

(** Once the running maximum is [+inf], nothing finite or infinite
    replaces it. *)
Lemma argmax_from_inf mi i l :
  Forall (fun x => F64.is_finite x = true \/ x = F64.inf) l ->
  F64.argmax_from F64.inf mi i l = mi.
Proof.
  revert i. induction l as [|x l IH]; intros i Hl; [done|].
  apply Forall_cons in Hl as [Hx Hl]. cbn.
  replace (F64.leb x F64.inf) with true; [by apply IH|].
  destruct Hx as [Hx| ->]; [by rewrite leb_finite_inf|done].
Qed.

(** Scanning finite values and then meeting [top], which is [+inf] or NaN
    and is the only non-finite value in the list, stops the maximum at the
    position of that first [top]. *)
Lemma argmax_from_first_top top mp mi i pre post :
  top = F64.inf \/ top = F64.nan ->
  F64.is_finite mp = true ->
  Forall (fun x => F64.is_finite x = true) pre ->
  Forall (fun x => F64.is_finite x = true \/ x = top) post ->
  F64.argmax_from mp mi i (pre ++ top :: post) = i + length pre.
Proof.
  intros Htop. revert mp mi i.
  induction pre as [|x pre IH]; intros mp mi i Hmp Hpre Hpost.
  - cbn [app length F64.argmax_from]. rewrite Nat.add_0_r.
    destruct Htop as [-> | ->].
    + rewrite leb_inf_finite by done. cbn [F64.is_nan F64.inf].
      by apply argmax_from_inf.
    + by rewrite leb_nan_l.
  - apply Forall_cons in Hpre as [Hx Hpre]. cbn [app length F64.argmax_from].
    destruct (F64.leb x mp).
    + rewrite IH by done. lia.
    + rewrite is_nan_finite by done. rewrite IH by done. lia.
Qed.

Lemma argmax_first_top top pre post :
  top = F64.inf \/ top = F64.nan ->
  Forall (fun x => F64.is_finite x = true) pre ->
  Forall (fun x => F64.is_finite x = true \/ x = top) post ->
  F64.argmax (pre ++ top :: post) = length pre.
Proof.
  intros Htop Hpre Hpost. destruct pre as [|x pre].
  - cbn [app length F64.argmax]. destruct Htop as [-> | ->]; [|done].
    cbn [F64.is_nan F64.inf]. by apply argmax_from_inf.
  - apply Forall_cons in Hpre as [Hx Hpre]. cbn [app length F64.argmax].
    rewrite is_nan_finite by done.
    by rewrite (argmax_from_first_top top x 0 1 pre post).
Qed.

Lemma get_ucb_unvisited h n nd ch cd c :
  h !! n = Some nd ->
  h !! ch = Some cd ->
  parent cd = Some n ->
  visits cd = 0 ->
  get_ucb ch c h = Ok (unvisited_ucb (visits nd) c).
Proof.
  intros Hn Hc Hp Hv. unfold get_ucb, win_ratio, rbind.
  rewrite (deref_Some _ _ _ Hc), Hv, Hp, (deref_Some _ _ _ Hn).
  by rewrite bool_decide_eq_true_2.
Qed.

Lemma Forall2_codomain {A B} (R' : A -> B -> Prop) (Q : B -> Prop) l bs :
  Forall2 R' l bs ->
  (forall a b, a ∈ l -> R' a b -> Q b) ->
  Forall Q bs.
Proof.
  induction 1 as [|a b l bs Hab _ IH]; intros HQ; constructor.
  - apply (HQ a); [set_solver|done].
  - apply IH. intros a' b' Ha'. apply HQ. set_solver.
Qed.

(** What [np.argmax] does with the UCB values: when the children all point
    back to the node, the UCB value of every visited child is a finite number
    and some child is unvisited, [select_child_with_max_ucb] returns the
    first unvisited child.  The UCB value of that child is [+inf] or NaN,
    and [np.argmax] takes either over every finite value. *)
Lemma argmax_takes_first_unvisited h n nd c :
  h !! n = Some nd ->
  (forall ch, ch ∈ children nd -> exists cd, h !! ch = Some cd /\ parent cd = Some n) ->
  (forall ch, ch ∈ children nd -> unvisited h ch = false ->
              exists u, get_ucb ch c h = Ok u /\ F64.is_finite u = true) ->
  (exists ch, ch ∈ children nd /\ unvisited h ch = true) ->
  exists i ch,
    select_child_with_max_ucb n c h = Ok ch /\
    children nd !! i = Some ch /\
    unvisited h ch = true /\
    (forall j cj, j < i -> children nd !! j = Some cj -> unvisited h cj = false) /\
    get_ucb ch c h = Ok (unvisited_ucb (visits nd) c) /\
    (unvisited_ucb (visits nd) c = F64.inf \/ unvisited_ucb (visits nd) c = F64.nan).
Proof.
  intros Hn Hback Hvisited (ch0 & Hin0 & Hun0).
  set (top := unvisited_ucb (visits nd) c).
  assert (forall ch, ch ∈ children nd -> unvisited h ch = true ->
                     get_ucb ch c h = Ok top) as Hun.
  { intros ch Hin Hu. destruct (Hback _ Hin) as (cd & Hcd & Hp).
    unfold unvisited in Hu. rewrite Hcd in Hu. apply bool_decide_eq_true_1 in Hu.
    by eapply get_ucb_unvisited. }
  destruct (list_find_elem_of (fun ch => unvisited h ch = true) (children nd) ch0)
    as [[i ch] Hfind]; [done..|].
  apply list_find_Some in Hfind as (Hi & Hch & Hbefore).
  assert (forall j cj, j < i -> children nd !! j = Some cj -> unvisited h cj = false)
    as Hbefore'.
  { intros j cj Hj Hcj. specialize (Hbefore j cj Hcj Hj).
    by destruct (unvisited h cj). }
  exists i, ch. pose proof (take_drop_middle _ _ _ Hi) as Hsplit.
  pose proof (lookup_lt_Some _ _ _ Hi) as Hilt.
  set (pre := take i (children nd)) in *. set (post := drop (S i) (children nd)) in *.
  assert (length pre = i) as Hprelen by (unfold pre; rewrite length_take; lia).
  destruct (rmap_Forall2 (fun child => get_ucb child c) (children nd) h)
    as (us & Hus & HF).
  { intros a Ha. destruct (unvisited h a) eqn:E; [by eauto|].
    destruct (Hvisited a Ha E) as (u & ? & _). eauto. }
  rewrite <- Hsplit in HF.
  apply Forall2_app_inv_l in HF as (upre & urest & Hpre & Hrest & ->).
  apply Forall2_cons_inv_l in Hrest as (u & upost & Hu & Hpost & ->).
  assert (u = top) as ->.
  { cbn beta in Hu. rewrite (Hun ch) in Hu; [|by eapply list_elem_of_lookup_2|done].
    by injection Hu. }
  assert (Forall (fun x => F64.is_finite x = true) upre) as Hfin.
  { eapply Forall2_codomain; [exact Hpre|]. cbn. intros a b Ha Hb.
    apply list_elem_of_lookup in Ha as [j Hj].
    pose proof (lookup_lt_Some _ _ _ Hj) as Hjlt.
    assert (children nd !! j = Some a) as Hj'.
    { rewrite <- Hsplit. by apply lookup_app_l_Some. }
    destruct (Hvisited a) as (u & Hu' & Hfu).
    - by eapply list_elem_of_lookup_2.
    - eapply Hbefore'; [|done]. lia.
    - congruence. }
  assert (Forall (fun x => F64.is_finite x = true \/ x = top) upost) as Hpostok.
  { eapply Forall2_codomain; [exact Hpost|]. cbn. intros a b Ha Hb.
    assert (a ∈ children nd) as Ha' by (rewrite <- Hsplit; set_solver).
    destruct (unvisited h a) eqn:E.
    - right. rewrite (Hun a Ha' E) in Hb. by injection Hb.
    - left. destruct (Hvisited a Ha' E) as (u & Hu' & Hfu). congruence. }
  pose proof (unvisited_ucb_top (visits nd) c) as Htop. fold top in Htop.
  split; [|done].
  unfold select_child_with_max_ucb, rbind. rewrite (deref_Some _ _ _ Hn), Hus.
  rewrite (argmax_first_top top upre upost Htop Hfin Hpostok).
  rewrite <- (Forall2_length _ _ _ Hpre), Hprelen, Hi.
  by destruct upre.
Qed.

End Facts.

(** * The properties at work on the take-away game *)

Module ToyFacts.
Import Toy.

Lemma contract : GameContract.
Proof.
  split.
  - intros [[|[|t]] b]; by cbn.
  - intros [t []] a _; cbn; set_solver.
Qed.

Lemma h0_reachable : reachable h0.
Proof. apply (@reachable_root game libm [] (2, true)), reachable_empty. Qed.

Lemma h1_reachable : reachable h1.
Proof.
  apply (reachable_step h0); [apply h0_reachable|].
  apply (@step_expand game libm h0 0 h1 (snd (expand 0 h0))). by vm_compute.
Qed.

Lemma h2_reachable : reachable h2.
Proof.
  apply (reachable_step h1); [apply h1_reachable|].
  apply (@step_expand game libm h1 0 h2 (snd (expand 0 h1))). by vm_compute.
Qed.

Lemma h_once_reachable : reachable h_once.
Proof.
  apply (reachable_step h2); [apply h2_reachable|].
  apply (@step_backpropagate game libm 5 h2 1 1 h_once (snd (backpropagate (G:=game) 5 1 1 h2))).
  by vm_compute.
Qed.

Lemma h_failed_reachable : reachable h_failed.
Proof.
  apply (reachable_step h2); [apply h2_reachable|].
  apply (@step_backpropagate game libm 5 h2 1 7 h_failed (snd (backpropagate (G:=game) 5 1 7 h2))).
  by vm_compute.
Qed.

Lemma node_at_lookup (h : heap) n : n < length h -> h !! n = Some (node_at h n).
Proof.
  intros [nd Hn]%lookup_lt_is_Some. unfold node_at. by rewrite Hn.
Qed.

Lemma expand_creates_child_witness :
  exists h' child cd nd',
    expand 0 h0 = (h', Ok child) /\
    h0 !! child = None /\
    h' !! child = Some cd /\
    game_state cd = make_move (game_state root_node) 2 /\
    parent cd = Some 0 /\
    action cd = Some 2 /\
    h' !! 0 = Some nd' /\
    untried_actions nd' = [1] /\
    children nd' = children root_node ++ [child] /\
    S (length (untried_actions nd')) = length (untried_actions root_node) /\
    length (children nd') = S (length (children root_node)) /\
    length h' = S (length h0) /\
    (forall m, m <> 0 -> m <> child -> h' !! m = h0 !! m).
Proof. apply (expand_creates_child (G:=game) h0 0 root_node [1] 2); reflexivity. Defined.

Lemma expand_exhausted_fails_witness : expand 0 h2 = (h2, Raise IndexError).
Proof.
  apply (expand_exhausted_fails (G:=game) h2 0 (node_at h2 0)); by vm_compute.
Defined.

Lemma win_ratio_non_root_witness :
  win_ratio 1 h_once = Ok (F64.truediv 1 1).
Proof.
  apply (proj2 (win_ratio_non_root (G:=game) h_once 1 (node_at h_once 1) 0 (node_at h_once 0)
                  ltac:(by vm_compute) ltac:(by vm_compute) ltac:(by vm_compute))
           1);
    vm_compute; (lia || reflexivity).
Defined.

Lemma win_ratio_root_witness : win_ratio 0 h_once = Raise AttributeError.
Proof.
  apply (proj1 (win_ratio_root (G:=game) h_once 0 (node_at h_once 0)
                  ltac:(by vm_compute) ltac:(by vm_compute))).
  vm_compute. lia.
Defined.

Lemma backpropagate_unknown_not_atomic_witness :
  backpropagate (G:=game) 5 1 7 h2 =
    (<[1 := with_visits (node_at h2 1) (visits (node_at h2 1) + 1)]> h2, Raise KeyError).
Proof.
  apply (backpropagate_unknown_not_atomic (G:=game) 4 h2 1 (node_at h2 1) 7); by vm_compute.
Defined.

Lemma backpropagate_unknown_fails_witness :
  exists h',
    backpropagate (G:=game) 5 1 7 h2 = (h', Raise KeyError) /\
    length h' = length h2 /\
    forall m md, h2 !! m = Some md ->
                 exists md', h' !! m = Some md' /\ wins md' = wins md.
Proof.
  apply (backpropagate_unknown_fails (G:=game) 4 h2 1 (node_at h2 1) 7); by vm_compute.
Defined.

Lemma children_bounded_by_moves_witness :
  length (children (node_at h2 0)) <= length (get_valid_moves (game_state (node_at h2 0))) /\
  (length (children (node_at h2 0)) = length (get_valid_moves (game_state (node_at h2 0)))
   <-> is_fully_expanded 0 h2 = Ok true).
Proof.
  apply (children_bounded_by_moves (G:=game) h2 0 (node_at h2 0)); [apply h2_reachable|by vm_compute].
Defined.

Lemma h2_children : children (node_at h2 0) = [1; 2].
Proof. by vm_compute. Qed.

Lemma h_twice_children : children (node_at h_twice 0) = [1; 2].
Proof. by vm_compute. Qed.

Lemma toy_keys (h : heap) m md :
  reachable h -> h !! m = Some md -> is_Some (wins md !! (1 : Player)).
Proof.
  intros Hr Hm. apply (wf_keys _ (reachable_well_formed _ Hr) _ _ Hm). cbn. set_solver.
Qed.

Lemma backpropagate_credits_path_witness :
  exists h',
    backpropagate (G:=game) 5 1 1 h2 = (h', Ok tt) /\
    length h' = length h2 /\
    forall m md, h2 !! m = Some md ->
                 exists md', h' !! m = Some md' /\
                             (on_path h2 1 m -> credited 1 md md') /\
                             (~ on_path h2 1 m -> md' = md).
Proof.
  apply (backpropagate_credits_path (G:=game) 5 h2 1 1 1).
  - apply (wf_parent _ (reachable_well_formed _ h2_reachable)).
  - apply (depth_child h2 1 (node_at h2 1) 0 0); [by vm_compute..|].
    apply (depth_root h2 0 (node_at h2 0)); by vm_compute.
  - lia.
  - intros m md _ Hm. exact (toy_keys h2 m md h2_reachable Hm).
Defined.

Lemma select_returns_leaf_witness :
  exists h' r m,
    select 3 0 one h_once = (h', Ok r) /\
    descends one h_once 0 m /\
    ((is_terminal m h_once = Ok true /\ r = m /\ h' = h_once) \/
     (is_terminal m h_once = Ok false /\ is_fully_expanded m h_once = Ok false /\
      expand m h_once = (h', Ok r) /\ h_once !! r = None)) /\
    ~ (is_terminal r h' = Ok false /\ is_fully_expanded r h' = Ok true) /\
    (is_terminal 0 h_once = Ok true -> r = 0 /\ h' = h_once).
Proof.
  apply (select_returns_leaf (G:=game) (H:=contract) 3 h_once 0 (node_at h_once 0) one).
  - apply h_once_reachable.
  - by vm_compute.
  - vm_compute. lia.
Defined.

(** After a [backpropagate] that raised.  [h_failed] has one visit on node 1
    and none on the root: [np.log 0] is [-inf], every UCB value is NaN, and
    the first child wins although it is the visited one and node 2 is
    unvisited. *)
Lemma raised_backpropagate_hides_unvisited :
  ~ ((exists ch, ch ∈ children (node_at h_failed 0) /\ unvisited h_failed ch = true) ->
     F64.leb F64.zero one = true ->
     exists ch, select_child_with_max_ucb 0 one h_failed = Ok ch /\
                unvisited h_failed ch = true).
Proof.
  intros Hclaim. destruct Hclaim as (ch & Hsel & Hun).
  - exists 2. split; [|by vm_compute].
    replace (children (node_at h_failed 0)) with [1; 2] by (by vm_compute). set_solver.
  - by vm_compute.
  - replace (select_child_with_max_ucb 0 one h_failed) with (Ok (A:=nat) 1) in Hsel
      by (by vm_compute).
    injection Hsel as <-. by vm_compute in Hun.
Qed.

(** The UCB value of an unvisited child is not always [+inf]: with an
    exploration constant of zero, or under a parent with one visit, it is
    NaN. *)
Example unvisited_ucb_nan_at_zero_constant : unvisited_ucb 2 F64.zero = F64.nan.
Proof. by vm_compute. Qed.

Example unvisited_ucb_nan_at_one_parent_visit : unvisited_ucb 1 one = F64.nan.
Proof. by vm_compute. Qed.

Example unvisited_ucb_inf : unvisited_ucb 2 one = F64.inf.
Proof. by vm_compute. Qed.

(** Three wins in five visits make a win ratio of 0.6. *)
Example truediv_three_fifths :
  F64.truediv 3 5 = S754_finite false 5404319552844595 (-53).
Proof. by vm_compute. Qed.

End ToyFacts.

(** * Further properties of the class *)

Section MoreFacts.
Context `{G : Game} `{L : Libm}.
Implicit Types (h : heap) (nd pd cd : node) (n m : nat).

(** ** The constructor *)

Lemma init_wins_fold_lookup (l : list Player) (ws : gmap Player nat) (k : Player) :
  foldl (fun (acc : gmap Player nat) (q : Player) => <[q := 0]> acc) ws l !! k =
    if decide (k ∈ l) then Some 0 else ws !! k.
Proof.
  revert ws. induction l as [|q l IH]; intros ws; cbn [foldl].
  - by rewrite decide_False by apply not_elem_of_nil.
  - rewrite IH. destruct (decide (k ∈ l)) as [Hin|Hnin].
    + rewrite decide_True by (by right). done.
    + destruct (decide (k = q)) as [->|Hne].
      * rewrite decide_True by (by left). by rewrite lookup_insert_eq.
      * rewrite decide_False by (by intros [?|?]%elem_of_cons).
        by rewrite lookup_insert_ne.
Qed.

Lemma init_wins_lookup (gs : GameState) (k : Player) :
  init_wins gs !! k =
    if decide (k ∈ OnlyDrawPlayer :: players gs) then Some 0 else None.
Proof.
  unfold init_wins. destruct (decide (k = OnlyDrawPlayer)) as [->|Hne].
  - rewrite lookup_insert_eq. by rewrite decide_True by (by left).
  - rewrite lookup_insert_ne by done. rewrite init_wins_fold_lookup, lookup_empty.
    destruct (decide (k ∈ players gs)) as [Hin|Hnin].
    + by rewrite decide_True by (by right).
    + by rewrite decide_False by (by intros [?|?]%elem_of_cons).
Qed.

(** X1: a freshly constructed node counts zero wins for the draw sentinel and
    for every player of its game state, has no other key in [wins] (also when
    the sentinel is among the players or a player is listed twice), has no
    visits and no children, and has all valid moves untried. *)
Theorem new_node_initial (gs : GameState) (po : option nat) (ao : option Move) :
  (forall k, wins (new_node gs po ao) !! k =
             if decide (k ∈ OnlyDrawPlayer :: players gs) then Some 0 else None) /\
  visits (new_node gs po ao) = 0 /\
  children (new_node gs po ao) = [] /\
  untried_actions (new_node gs po ao) = get_valid_moves gs.
Proof. split; [|done]. apply init_wins_lookup. Qed.

(** ** Errors of [get_ucb], [select_child_with_max_ucb] and [select] *)

(** X2: [get_ucb] raises [AttributeError] on every root, visited or not: an
    unvisited root passes [win_ratio] and then fails at
    [child.parent.visits]. *)
Theorem get_ucb_root_fails h n nd c :
  h !! n = Some nd ->
  parent nd = None ->
  get_ucb n c h = Raise AttributeError.
Proof.
  intros Hn Hp. unfold get_ucb, win_ratio, rbind. rewrite (deref_Some _ _ _ Hn), Hp.
  by destruct (bool_decide (visits nd = 0)).
Qed.

Lemma rmap_length {A B} (f : A -> R B) (l : list A) h bs :
  rmap f l h = Ok bs -> length bs = length l.
Proof.
  revert bs. induction l as [|a l IH]; intros bs; cbn; unfold rbind, rret.
  - by intros [= <-].
  - destruct (f a h) as [b| |]; [|done..].
    destruct (rmap f l h) as [bs'| |]; [|done..].
    intros [= <-]. cbn. by rewrite (IH bs').
Qed.

(** X3: whatever the UCB values are, a node that [select_child_with_max_ucb]
    returns is one of the receiver's children. *)
Theorem select_child_is_a_child h n c ch :
  select_child_with_max_ucb n c h = Ok ch ->
  exists nd, h !! n = Some nd /\ ch ∈ children nd.
Proof.
  unfold select_child_with_max_ucb, rbind, deref.
  destruct (h !! n) as [nd|] eqn:Hn; [|done].
  destruct (rmap _ (children nd) h) as [us| |]; [|done..].
  destruct us as [|u us]; [done|].
  destruct (children nd !! F64.argmax (u :: us)) as [ch'|] eqn:Hch; [|done].
  intros [= <-]. exists nd. split; [done|]. by eapply list_elem_of_lookup_2.
Qed.

(** X4: on a position without a winner and without a valid move, [select]
    raises the [ValueError] of [np.argmax] on an empty sequence (the node
    counts as fully expanded and has no child to pick), and leaves the heap
    as it was. *)
Theorem select_dead_end fuel h n nd c :
  reachable h ->
  h !! n = Some nd ->
  winner (game_state nd) = None ->
  get_valid_moves (game_state nd) = [] ->
  select (S fuel) n c h = (h, Raise ValueError).
Proof.
  intros Hr Hn Hw Hv.
  destruct (wf_moves _ (reachable_well_formed _ Hr) _ _ Hn) as (tried & Hv' & Hl).
  rewrite Hv in Hv'. symmetry in Hv'. apply app_eq_nil in Hv' as [_ ->].
  symmetry in Hl. apply length_zero_iff_nil in Hl.
  rewrite select_unfold, (is_terminal_eq _ _ _ Hn), (is_fully_expanded_eq _ _ _ Hn).
  rewrite Hw, Hv, Hl. cbn.
  unfold select_child_with_max_ucb, rbind. by rewrite (deref_Some _ _ _ Hn), Hl.
Qed.

(** X5: [select] is all or nothing.  Either the heap is untouched, or it is
    the heap after one successful [expand] and the call returns the node that
    [expand] created; in particular a call that raises changes nothing and no
    call adds more than one node. *)
Theorem select_all_or_nothing fuel h n c h' o :
  select fuel n c h = (h', o) ->
  h' = h \/
  exists m nd us a,
    h !! m = Some nd /\ untried_actions nd = us ++ [a] /\
    h' = expanded h m nd us a /\ o = Ok (length h).
Proof.
  revert n. induction fuel as [|fuel IH]; intros n Hs.
  - left. by injection Hs as <- <-.
  - rewrite select_unfold in Hs.
    destruct (is_terminal n h) as [[]| |];
      [left; by injection Hs as <- <-| |left; by injection Hs as <- <-..].
    destruct (is_fully_expanded n h) as [[]| |];
      [| |left; by injection Hs as <- <-..].
    + destruct (select_child_with_max_ucb n c h) as [ch| |];
        [|left; by injection Hs as <- <-..].
      by eapply IH.
    + apply expand_cases in Hs as [[-> _]|(nd & us & a & ? & ? & ? & ?)]; [by left|].
      right. by exists n, nd, us, a.
Qed.

End MoreFacts.

Section RolloutFacts.
Context `{G : Game} `{RG : !RolloutGame} `{RI : Randint} `{RD : !Render}.
Implicit Types (h : heap) (nd : node) (n : nat).

(** ** [rollout] and the rollout strategies *)

Lemma rollout_loop_playout fuel k (s : GameState) :
  is_game_over (playout k s) = true ->
  (forall j, j < k -> is_game_over (playout j s) = false) ->
  k < fuel ->
  rollout_loop fuel s = Ok (winner (playout k s)).
Proof.
  revert fuel s. induction k as [|k IH]; intros fuel s Hover Hbefore Hfuel;
    (destruct fuel as [|fuel]; [lia|]); cbn [rollout_loop];
    unfold get_move_from_heuristic_rollout_strategy.
  - cbn [playout] in Hover. by rewrite Hover.
  - pose proof (Hbefore 0 ltac:(lia)) as H0. cbn [playout] in H0. rewrite H0.
    apply IH; [done| |lia].
    intros j Hj. apply (Hbefore (S j)). lia.
Qed.

(** X6: [rollout] plays the heuristic move until the first state that is
    over and returns the winner of exactly that state: if the state after [k]
    heuristic moves is the first one that is over, [rollout] returns its
    winner (given more than [k] steps). *)
Theorem rollout_returns_first_final_winner fuel k h n nd :
  h !! n = Some nd ->
  is_game_over (playout k (game_state nd)) = true ->
  (forall j, j < k -> is_game_over (playout j (game_state nd)) = false) ->
  k < fuel ->
  rollout fuel n h = Ok (winner (playout k (game_state nd))).
Proof.
  intros Hn Hover Hbefore Hfuel. unfold rollout, rbind. rewrite (deref_Some _ _ _ Hn).
  by apply rollout_loop_playout.
Qed.

(** X7: when no state along the heuristic playout is ever over, [rollout]
    does not return, however many steps it is given. *)
Theorem rollout_never_returns fuel h n nd :
  h !! n = Some nd ->
  (forall k, is_game_over (playout k (game_state nd)) = false) ->
  rollout fuel n h = Stuck.
Proof.
  intros Hn Hnever. unfold rollout, rbind. rewrite (deref_Some _ _ _ Hn).
  generalize dependent (game_state nd). clear Hn.
  induction fuel as [|fuel IH]; intros s Hnever; [done|].
  cbn [rollout_loop]. unfold get_move_from_heuristic_rollout_strategy.
  pose proof (Hnever 0) as H0. cbn [playout] in H0. rewrite H0. apply IH.
  intros k. apply (Hnever (S k)).
Qed.

(** X8: the uniform strategy raises [ValueError] on a state without valid
    moves, and otherwise, for a draw below the number of moves, returns one
    of the state's valid moves. *)
Theorem simple_strategy_move (s : GameState) :
  (get_valid_moves s = [] ->
   get_move_from_simple_rollout_strategy s = Raise ValueError) /\
  (get_valid_moves s <> [] ->
   randint (length (get_valid_moves s)) < length (get_valid_moves s) ->
   exists move, get_move_from_simple_rollout_strategy s = Ok move /\
                move ∈ get_valid_moves s).
Proof.
  unfold get_move_from_simple_rollout_strategy. split.
  - by intros ->.
  - intros Hne Hlt. destruct (get_valid_moves s) as [|x l] eqn:E; [done|].
    cbn [length]. apply lookup_lt_is_Some in Hlt as [move Hmove].
    cbn [length] in Hmove. rewrite Hmove. exists move. split; [done|].
    by eapply list_elem_of_lookup_2.
Qed.

(** ** [__str__] *)

(** X9: [__str__] interpolates [win_ratio], so on a root it raises
    [AttributeError] as soon as the root has been visited; on an unvisited
    root it renders a win ratio of [+inf]. *)
Theorem str_of_root h n nd :
  h !! n = Some nd ->
  parent nd = None ->
  (0 < visits nd -> __str__ n h = Raise AttributeError) /\
  (visits nd = 0 ->
   __str__ n h =
     Ok (render n (action nd) 0 F64.inf
           (bool_decide (length (children nd) = length (get_valid_moves (game_state nd))))
           (children nd))).
Proof.
  intros Hn Hp. unfold __str__, win_ratio, is_fully_expanded, rbind.
  rewrite (deref_Some _ _ _ Hn). split.
  - intros Hv. rewrite bool_decide_eq_false_2 by lia. by rewrite Hp.
  - intros ->. by rewrite bool_decide_eq_true_2.
Qed.

End RolloutFacts.

Section TreeFacts.
Context `{G : Game} `{L : Libm}.
Implicit Types (h : heap) (nd pd cd : node) (n m : nat).

(** ** Induction over what the methods do to the heap *)

Lemma reachable_credit_frame h n nd w k :
  reachable h -> h !! n = Some nd -> wins nd !! w = Some k ->
  reachable (<[n := credit w k nd]> h).
Proof.
  intros Hr Hn Hw. apply (reachable_step h); [done|].
  pose proof (backpropagate_frame 0 _ _ _ _ _ Hn Hw) as Hb.
  destruct (parent nd); by eapply step_backpropagate.
Qed.

Lemma reachable_ops_ind (P : heap -> Prop) :
  P [] ->
  (forall h gs, reachable h -> P h -> P (h ++ [new_node gs None None])) ->
  (forall h n nd us a,
     reachable h -> P h -> h !! n = Some nd -> untried_actions nd = us ++ [a] ->
     P (expanded h n nd us a)) ->
  (forall h n nd w,
     reachable h -> P h -> h !! n = Some nd -> wins nd !! w = None ->
     P (<[n := with_visits nd (visits nd + 1)]> h)) ->
  (forall h n nd w k,
     reachable h -> P h -> h !! n = Some nd -> wins nd !! w = Some k ->
     P (<[n := credit w k nd]> h)) ->
  forall h, reachable h -> P h.
Proof.
  intros Hnil Hroot Hexp Hfail Hcredit.
  assert (forall h n h' o, reachable h -> P h -> expand n h = (h', o) -> P h') as Hexpand.
  { intros h n h' o Hr HP [[-> _]|(nd & us & a & Hn & Hu & -> & _)]%expand_cases; eauto. }
  assert (forall fuel h n w h' o,
            reachable h -> P h -> backpropagate fuel n w h = (h', o) -> P h') as Hbp.
  { induction fuel as [|fuel IH]; intros h n w h' o Hr HP Hb.
    - by injection Hb as <- <-.
    - destruct (h !! n) as [nd|] eqn:Hn.
      + destruct (wins nd !! w) as [k|] eqn:Hw.
        * rewrite (backpropagate_frame _ _ _ _ _ _ Hn Hw) in Hb.
          destruct (parent nd) as [p|].
          -- eapply IH; [by eapply reachable_credit_frame| |done]. eauto.
          -- injection Hb as <- <-. eauto.
        * rewrite (backpropagate_unknown_eq _ _ _ _ _ Hn Hw) in Hb.
          injection Hb as <- <-. eauto.
      + cbn [backpropagate] in Hb. unfold bind, read, deref in Hb.
        rewrite Hn in Hb. by injection Hb as <- <-. }
  induction 1 as [|h gs Hr IH|h h' Hr IH Hstep]; [done|by apply Hroot|].
  destruct Hstep as [h n h' o He|fuel h n w h' o Hb|fuel h n c h' o Hs].
  - eauto.
  - eauto.
  - apply select_heap in Hs as [->|(m & o' & He)]; eauto.
Qed.

(** ** Wins never outnumber visits *)

Lemma sum_comm (j1 j2 : Player) (z1 z2 y : nat) : z1 + (z2 + y) = z2 + (z1 + y).
Proof. lia. Qed.

Lemma total_wins_lookup nd k v :
  wins nd !! k = Some v -> v <= total_wins nd.
Proof.
  intros Hk. unfold total_wins.
  rewrite (map_fold_delete_L _ _ k v); [lia| |done].
  intros. apply sum_comm; done.
Qed.

Lemma total_wins_credit w k nd :
  wins nd !! w = Some k -> total_wins (credit w k nd) = total_wins nd + 1.
Proof.
  intros Hw. unfold total_wins. cbn [credit wins with_wins with_visits].
  rewrite (map_fold_delete_L _ _ w k (wins nd)); [| |done].
  2: { intros. apply sum_comm; done. }
  rewrite <- insert_delete_eq.
  rewrite map_fold_insert_L; [lia| |apply lookup_delete_eq].
  intros. apply sum_comm; done.
Qed.

Lemma total_wins_zero nd :
  (forall k v, wins nd !! k = Some v -> v = 0) -> total_wins nd = 0.
Proof.
  unfold total_wins. generalize (wins nd). intros ws.
  apply (map_fold_weak_ind
           (fun r (ws : gmap Player nat) => (forall k v, ws !! k = Some v -> v = 0) -> r = 0)).
  - done.
  - intros i x ws' r Hi IH Hall.
    rewrite (Hall i x) by apply lookup_insert_eq. rewrite IH; [done|].
    intros k v Hk. apply (Hall k). rewrite lookup_insert_ne; [done|]. congruence.
Qed.

Lemma total_wins_new_node (gs : GameState) (po : option nat) (ao : option Move) :
  total_wins (new_node gs po ao) = 0.
Proof.
  apply total_wins_zero. intros k v. cbn [new_node wins]. rewrite init_wins_lookup.
  case_decide; congruence.
Qed.

(** X10: in every heap the driver can build, the win counts of a node add up
    to at most its visits; so no single count exceeds the visits either. *)
Theorem wins_bounded_by_visits h n nd :
  reachable h ->
  h !! n = Some nd ->
  total_wins nd <= visits nd /\
  (forall k v, wins nd !! k = Some v -> v <= visits nd).
Proof.
  intros Hr Hn.
  assert (total_wins nd <= visits nd) as Htotal.
  { revert n nd Hn. revert h Hr.
    apply (reachable_ops_ind
             (fun h => forall n nd, h !! n = Some nd -> total_wins nd <= visits nd)).
    - intros n nd Hn. by rewrite lookup_nil in Hn.
    - intros h gs _ IH n nd Hn.
      apply lookup_snoc_cases in Hn as [[_ Hn]|[_ ->]]; [by eapply IH|].
      rewrite total_wins_new_node. lia.
    - intros h n0 nd0 us a _ IH Hn0 _ n nd Hn.
      apply (expanded_lookup _ _ _ _ _ _ _ Hn0) in Hn as [[_ ->]|[[_ Hn]|[_ ->]]].
      + apply (IH _ _ Hn0).
      + by eapply IH.
      + rewrite total_wins_new_node. lia.
    - intros h n0 nd0 w _ IH Hn0 _ n nd Hn.
      pose proof (lookup_lt_Some _ _ _ Hn0) as Hlt.
      destruct (decide (n = n0)) as [->|Hne].
      + rewrite list_lookup_insert_eq in Hn by done. injection Hn as <-.
        specialize (IH _ _ Hn0). unfold total_wins in *. cbn. lia.
      + rewrite list_lookup_insert_ne in Hn by done. by eapply IH.
    - intros h n0 nd0 w k _ IH Hn0 Hw n nd Hn.
      pose proof (lookup_lt_Some _ _ _ Hn0) as Hlt.
      destruct (decide (n = n0)) as [->|Hne].
      + rewrite list_lookup_insert_eq in Hn by done. injection Hn as <-.
        rewrite total_wins_credit by done. specialize (IH _ _ Hn0). cbn. lia.
      + rewrite list_lookup_insert_ne in Hn by done. by eapply IH. }
  split; [done|]. intros k v Hk. pose proof (total_wins_lookup _ _ _ Hk). lia.
Qed.

(** ** Nodes only grow *)

Lemma node_grows_refl nd : node_grows nd nd.
Proof. repeat split; try done. intros k v ?. by exists v. Qed.

Lemma node_grows_trans nd1 nd2 nd3 :
  node_grows nd1 nd2 -> node_grows nd2 nd3 -> node_grows nd1 nd3.
Proof.
  intros (?&?&?&Hc1&Hu1&?&Hw1) (?&?&?&Hc2&Hu2&?&Hw2).
  repeat split; try congruence; [by etrans|by etrans|lia|].
  intros k v Hk. destruct (Hw1 _ _ Hk) as (v' & Hk' & ?).
  destruct (Hw2 _ _ Hk') as (v'' & Hk'' & ?). exists v''. split; [done|lia].
Qed.

Lemma heap_grows_refl h : heap_grows h h.
Proof. intros n nd ?. exists nd. split; [done|apply node_grows_refl]. Qed.

Lemma heap_grows_trans h1 h2 h3 :
  heap_grows h1 h2 -> heap_grows h2 h3 -> heap_grows h1 h3.
Proof.
  intros H12 H23 n nd Hn. destruct (H12 _ _ Hn) as (nd' & Hn' & Hg).
  destruct (H23 _ _ Hn') as (nd'' & Hn'' & Hg'). exists nd''.
  split; [done|by eapply node_grows_trans].
Qed.

Lemma heap_grows_insert h n nd nd' :
  h !! n = Some nd -> node_grows nd nd' -> heap_grows h (<[n := nd']> h).
Proof.
  intros Hn Hg m md Hm. pose proof (lookup_lt_Some _ _ _ Hn) as Hlt.
  destruct (decide (m = n)) as [->|Hne].
  - rewrite list_lookup_insert_eq by done. exists nd'. split; [done|]. congruence.
  - rewrite list_lookup_insert_ne by done. exists md. split; [done|apply node_grows_refl].
Qed.

Lemma heap_grows_app h (l : heap) : heap_grows h (h ++ l).
Proof.
  intros n nd Hn. exists nd. split; [by apply lookup_app_l_Some|apply node_grows_refl].
Qed.

Lemma heap_grows_expanded h n nd us a :
  h !! n = Some nd -> untried_actions nd = us ++ [a] ->
  heap_grows h (expanded h n nd us a).
Proof.
  intros Hn Hu. eapply heap_grows_trans; [|apply heap_grows_app].
  apply (heap_grows_insert _ _ _ _ Hn). repeat split; try done; cbn.
  - by apply prefix_app_r.
  - rewrite Hu. by apply prefix_app_r.
  - intros k v ?. by exists v.
Qed.

Lemma node_grows_visit nd : node_grows nd (with_visits nd (visits nd + 1)).
Proof. repeat split; try done; cbn; [lia|]. intros k v ?. by exists v. Qed.

Lemma node_grows_credit w k nd :
  wins nd !! w = Some k -> node_grows nd (credit w k nd).
Proof.
  intros Hw. repeat split; try done; cbn; [lia|]. intros k0 v Hk0.
  destruct (decide (k0 = w)) as [->|Hne].
  - rewrite lookup_insert_eq. exists (k + 1). split; [done|].
    assert (v = k) by congruence. lia.
  - rewrite lookup_insert_ne by done. by exists v.
Qed.

Lemma backpropagate_grows fuel h n w h' o :
  backpropagate fuel n w h = (h', o) -> heap_grows h h'.
Proof.
  revert h n. induction fuel as [|fuel IH]; intros h n Hb.
  - injection Hb as <- <-. apply heap_grows_refl.
  - destruct (h !! n) as [nd|] eqn:Hn.
    + destruct (wins nd !! w) as [k|] eqn:Hw.
      * rewrite (backpropagate_frame _ _ _ _ _ _ Hn Hw) in Hb.
        pose proof (heap_grows_insert _ _ _ _ Hn (node_grows_credit _ _ _ Hw)) as Hg.
        destruct (parent nd) as [p|].
        -- eapply heap_grows_trans; [exact Hg|by eapply IH].
        -- by injection Hb as <- <-.
      * rewrite (backpropagate_unknown_eq _ _ _ _ _ Hn Hw) in Hb.
        injection Hb as <- <-. apply (heap_grows_insert _ _ _ _ Hn), node_grows_visit.
    + cbn [backpropagate] in Hb. unfold bind, read, deref in Hb.
      rewrite Hn in Hb. injection Hb as <- <-. apply heap_grows_refl.
Qed.

Lemma expand_grows h n h' o : expand n h = (h', o) -> heap_grows h h'.
Proof.
  intros [[-> _]|(nd & us & a & Hn & Hu & -> & _)]%expand_cases;
    [apply heap_grows_refl|by apply heap_grows_expanded].
Qed.

(** X11: no call of [expand], [backpropagate] or [select], whatever its
    outcome, removes a node or changes a node's game state, parent or action;
    a node's children are only added to at the end, its untried actions only
    taken off the end, and its visits and win counts never go down. *)
Theorem step_only_grows h h' : step h h' -> heap_grows h h'.
Proof.
  intros Hstep. destruct Hstep as [h n h' o He|fuel h n w h' o Hb|fuel h n c h' o Hs].
  - by eapply expand_grows.
  - by eapply backpropagate_grows.
  - apply select_heap in Hs as [->|(m & o' & He)];
      [apply heap_grows_refl|by eapply expand_grows].
Qed.

(** ** Parent and child links *)

Lemma grows_child_link h h' c cd p :
  heap_grows h h' -> h !! c = Some cd -> parent cd = Some p ->
  exists cd', h' !! c = Some cd' /\ parent cd' = Some p.
Proof.
  intros Hg Hc Hp. destruct (Hg _ _ Hc) as (cd' & Hc' & (_&Hp'&_)).
  exists cd'. split; [done|congruence].
Qed.

Lemma grows_parent_link h h' p pd c :
  heap_grows h h' -> h !! p = Some pd -> c ∈ children pd ->
  exists pd', h' !! p = Some pd' /\ c ∈ children pd'.
Proof.
  intros Hg Hp Hc. destruct (Hg _ _ Hp) as (pd' & Hp' & (_&_&_&[k Hk]&_)).
  exists pd'. split; [done|]. rewrite Hk. apply elem_of_app. by left.
Qed.

Lemma linked_nil : linked [].
Proof.
  split.
  - intros n nd Hn. by rewrite lookup_nil in Hn.
  - intros n nd c Hn. by rewrite lookup_nil in Hn.
  - intros c cd p Hc. by rewrite lookup_nil in Hc.
Qed.

Lemma linked_root h gs : linked h -> linked (h ++ [new_node gs None None]).
Proof.
  intros [Hnd Hdown Hup].
  pose proof (heap_grows_app h [new_node gs None None]) as Hg. split.
  - intros n nd [[_ Hn]|[_ ->]]%lookup_snoc_cases; [by eapply Hnd|constructor].
  - intros n nd c [[_ Hn]|[_ ->]]%lookup_snoc_cases Hc; [|by apply elem_of_nil in Hc].
    destruct (Hdown _ _ _ Hn Hc) as (cd & Hcd & Hp). by eapply grows_child_link.
  - intros c cd p [[_ Hc]|[_ ->]]%lookup_snoc_cases Hp; [|done].
    destruct (Hup _ _ _ Hc Hp) as (pd & Hpd & Hin). by eapply grows_parent_link.
Qed.

Lemma linked_expanded h n nd us a :
  linked h -> h !! n = Some nd -> untried_actions nd = us ++ [a] ->
  linked (expanded h n nd us a).
Proof.
  intros [Hnd Hdown Hup] Hn Hu.
  pose proof (heap_grows_expanded _ _ _ _ _ Hn Hu) as Hg.
  pose proof (lookup_lt_Some _ _ _ Hn) as Hlt.
  assert (expanded h n nd us a !! length h =
            Some (new_node (make_move (game_state nd) a) (Some n) (Some a))) as Hnew.
  { unfold expanded. rewrite lookup_app_r by (by rewrite length_insert).
    by rewrite length_insert, Nat.sub_diag. }
  assert (expanded h n nd us a !! n =
            Some (with_children (with_untried_actions nd us) (children nd ++ [length h])))
    as Hn'.
  { unfold expanded. rewrite lookup_app_l by (by rewrite length_insert).
    by apply list_lookup_insert_eq. }
  split.
  - intros m md [[-> ->]|[[_ Hm]|[-> ->]]]%(expanded_lookup _ _ _ _ _ _ _ Hn).
    + cbn. apply NoDup_app. split; [by eapply Hnd|]. split; [|apply NoDup_singleton].
      intros c Hc Heq%list_elem_of_singleton. subst c.
      destruct (Hdown _ _ _ Hn Hc) as (cd & Hcd%lookup_lt_Some & _). lia.
    + by eapply Hnd.
    + constructor.
  - intros m md c [[-> ->]|[[_ Hm]|[-> ->]]]%(expanded_lookup _ _ _ _ _ _ _ Hn) Hc.
    + cbn in Hc. apply elem_of_app in Hc as [Hc|Heq%list_elem_of_singleton].
      * destruct (Hdown _ _ _ Hn Hc) as (cd & Hcd & Hp). by eapply grows_child_link.
      * subst c. eexists. by split.
    + destruct (Hdown _ _ _ Hm Hc) as (cd & Hcd & Hp). by eapply grows_child_link.
    + by apply elem_of_nil in Hc.
  - intros c cd p [[-> ->]|[[_ Hc]|[-> ->]]]%(expanded_lookup _ _ _ _ _ _ _ Hn) Hp.
    + destruct (Hup _ _ _ Hn Hp) as (pd & Hpd & Hin). by eapply grows_parent_link.
    + destruct (Hup _ _ _ Hc Hp) as (pd & Hpd & Hin). by eapply grows_parent_link.
    + injection Hp as <-. eexists. split; [done|]. cbn. apply elem_of_app. right.
      by apply list_elem_of_singleton.
Qed.

Lemma linked_update h n nd nd' :
  linked h -> h !! n = Some nd ->
  children nd' = children nd -> parent nd' = parent nd ->
  linked (<[n := nd']> h).
Proof.
  intros [Hnd Hdown Hup] Hn Hch Hpar. pose proof (lookup_lt_Some _ _ _ Hn) as Hlt.
  assert (forall m md', <[n := nd']> h !! m = Some md' ->
            exists md, h !! m = Some md /\ children md' = children md /\
                       parent md' = parent md) as Hback.
  { intros m md' Hm. destruct (decide (m = n)) as [->|Hne].
    - rewrite list_lookup_insert_eq in Hm by done. injection Hm as <-. by exists nd.
    - rewrite list_lookup_insert_ne in Hm by done. by exists md'. }
  assert (forall m md, h !! m = Some md ->
            exists md', <[n := nd']> h !! m = Some md' /\ children md' = children md /\
                        parent md' = parent md) as Hforth.
  { intros m md Hm. destruct (decide (m = n)) as [->|Hne].
    - rewrite list_lookup_insert_eq by done. exists nd'. split; [done|].
      split; congruence.
    - rewrite list_lookup_insert_ne by done. by exists md. }
  split.
  - intros m md' (md & Hm & -> & _)%Hback. by eapply Hnd.
  - intros m md' c (md & Hm & Hc' & _)%Hback Hc. rewrite Hc' in Hc.
    destruct (Hdown _ _ _ Hm Hc) as (cd & Hcd & Hp).
    destruct (Hforth _ _ Hcd) as (cd' & ? & _ & Hp'). exists cd'. split; congruence.
  - intros c cd' p (cd & Hc & _ & Hp')%Hback Hp. rewrite Hp' in Hp.
    destruct (Hup _ _ _ Hc Hp) as (pd & Hpd & Hin).
    destruct (Hforth _ _ Hpd) as (pd' & ? & Hc' & _). exists pd'. split; congruence.
Qed.

Lemma reachable_linked h : reachable h -> linked h.
Proof.
  revert h. apply (reachable_ops_ind linked).
  - apply linked_nil.
  - intros h gs _ IH. by apply linked_root.
  - intros h n nd us a _ IH Hn Hu. by apply linked_expanded.
  - intros h n nd w _ IH Hn _. by eapply linked_update.
  - intros h n nd w k _ IH Hn _. by eapply linked_update.
Qed.

(** X12: in every heap the driver can build, the links agree in both
    directions and no child is shared or repeated: a node listed among the
    children of [n] exists and has [n] as its parent, a node whose parent is
    [p] is listed among the children of [p], and no list of children holds
    the same node twice. *)
Theorem tree_links h :
  reachable h ->
  (forall n nd, h !! n = Some nd -> NoDup (children nd)) /\
  (forall n nd c, h !! n = Some nd -> c ∈ children nd ->
                  exists cd, h !! c = Some cd /\ parent cd = Some n) /\
  (forall c cd p, h !! c = Some cd -> parent cd = Some p ->
                  exists pd, h !! p = Some pd /\ c ∈ children pd).
Proof.
  intros [Hnd Hdown Hup]%reachable_linked. by repeat split.
Qed.

(** X13: in every heap the driver can build, following [parent] from any node
    reaches a root after finitely many steps, at most as many as the node's
    index: the parent links have no cycle. *)
Theorem ancestors_end_at_root h n nd :
  reachable h ->
  h !! n = Some nd ->
  exists d, depth h n d /\ d <= n.
Proof.
  intros Hr. pose proof (wf_parent _ (reachable_well_formed _ Hr)) as Hpb.
  pose proof (linked_up _ (reachable_linked _ Hr)) as Hup.
  revert nd. induction n as [n IH] using lt_wf_ind. intros nd Hn.
  destruct (parent nd) as [p|] eqn:Hp.
  - destruct (Hup _ _ _ Hn Hp) as (pd & Hpd & _).
    pose proof (Hpb _ _ _ Hn Hp) as Hlt.
    destruct (IH p Hlt pd Hpd) as (d & Hd & Hle).
    exists (S d). split; [by eapply depth_child|lia].
  - exists 0. split; [by eapply depth_root|lia].
Qed.

(** ** Which move made which child *)

Lemma record_transfer h h' nd nd' :
  expansion_record h nd ->
  heap_grows h h' ->
  game_state nd' = game_state nd ->
  untried_actions nd' = untried_actions nd ->
  children nd' = children nd ->
  expansion_record h' nd'.
Proof.
  intros (tried & Hv & HF) Hg Hgs Hu Hc. exists tried. rewrite Hgs, Hu, Hc.
  split; [done|]. eapply Forall2_impl; [exact HF|]. cbn.
  intros c a (cd & Hcd & Ha & Hs). destruct (Hg _ _ Hcd) as (cd' & Hcd' & (Hs'&_&Ha'&_)).
  exists cd'. split; [done|]. split; congruence.
Qed.

Lemma record_new_node h (gs : GameState) (po : option nat) (ao : option Move) :
  expansion_record h (new_node gs po ao).
Proof. exists []. cbn. rewrite app_nil_r. split; [done|constructor]. Qed.

Lemma reachable_record h n nd :
  reachable h -> h !! n = Some nd -> expansion_record h nd.
Proof.
  intros Hr. revert n nd. revert h Hr.
  apply (reachable_ops_ind
           (fun h => forall n nd, h !! n = Some nd -> expansion_record h nd)).
  - intros n nd Hn. by rewrite lookup_nil in Hn.
  - intros h gs _ IH n nd [[_ Hn]|[_ ->]]%lookup_snoc_cases;
      [|apply record_new_node].
    eapply record_transfer; [by eapply IH|apply heap_grows_app|done..].
  - intros h n0 nd0 us a _ IH Hn0 Hu n nd Hn.
    pose proof (heap_grows_expanded _ _ _ _ _ Hn0 Hu) as Hg.
    apply (expanded_lookup _ _ _ _ _ _ _ Hn0) in Hn as [[_ ->]|[[_ Hn]|[_ ->]]];
      [|by eapply record_transfer; [by eapply IH|..]|apply record_new_node].
    destruct (record_transfer _ _ _ nd0 (IH _ _ Hn0) Hg) as (tried & Hv & HF); [done..|].
    exists (a :: tried).
    cbn [game_state untried_actions children with_children with_untried_actions].
    split; [by rewrite Hv, Hu, <- app_assoc|].
    rewrite reverse_cons. apply Forall2_app; [done|]. constructor; [|constructor].
    exists (new_node (make_move (game_state nd0) a) (Some n0) (Some a)).
    split; [|by split].
    unfold expanded. pose proof (lookup_lt_Some _ _ _ Hn0).
    rewrite lookup_app_r by (by rewrite length_insert).
    by rewrite length_insert, Nat.sub_diag.
  - intros h n0 nd0 w _ IH Hn0 _ n nd Hn.
    pose proof (heap_grows_insert _ _ _ _ Hn0 (node_grows_visit nd0)) as Hg.
    pose proof (lookup_lt_Some _ _ _ Hn0) as Hlt.
    destruct (decide (n = n0)) as [->|Hne].
    + rewrite list_lookup_insert_eq in Hn by done. injection Hn as <-.
      eapply record_transfer; [by eapply IH|done..].
    + rewrite list_lookup_insert_ne in Hn by done.
      eapply record_transfer; [by eapply IH|done..].
  - intros h n0 nd0 w k _ IH Hn0 Hw n nd Hn.
    pose proof (heap_grows_insert _ _ _ _ Hn0 (node_grows_credit _ _ _ Hw)) as Hg.
    pose proof (lookup_lt_Some _ _ _ Hn0) as Hlt.
    destruct (decide (n = n0)) as [->|Hne].
    + rewrite list_lookup_insert_eq in Hn by done. injection Hn as <-.
      eapply record_transfer; [by eapply IH|done..].
    + rewrite list_lookup_insert_ne in Hn by done.
      eapply record_transfer; [by eapply IH|done..].
Qed.

(** X14: in every heap the driver can build, the valid moves of a node's
    game state are its untried actions followed by the moves already tried,
    and the children, in order, are the tried moves from the last backwards:
    the i-th child carries that move as its action and the state the move
    leads to. *)
Theorem children_record_moves h n nd :
  reachable h ->
  h !! n = Some nd ->
  exists tried,
    get_valid_moves (game_state nd) = untried_actions nd ++ tried /\
    Forall2 (fun c a => exists cd, h !! c = Some cd /\ action cd = Some a /\
                                   game_state cd = make_move (game_state nd) a)
            (children nd) (reverse tried).
Proof. apply reachable_record. Qed.

(** X15: in every heap the driver can build, the keys of a node's [wins] are
    the draw sentinel and the players of its game state, as the constructor
    set them: no method adds or removes a key. *)
Theorem wins_keys_are_fixed h n nd (k : Player) :
  reachable h ->
  h !! n = Some nd ->
  is_Some (wins nd !! k) <-> k ∈ OnlyDrawPlayer :: players (game_state nd).
Proof. intros Hr Hn. apply (wf_keys _ (reachable_well_formed _ Hr) _ _ Hn). Qed.

(** ** Expanding a node to the end *)

Lemma length_S_snoc {A} (l : list A) k :
  length l = S k -> exists us a, l = us ++ [a] /\ length us = k.
Proof.
  destruct l as [|x l] using rev_ind; [done|].
  rewrite length_app. cbn. intros ?. exists l, x. split; [done|lia].
Qed.

(** X16: calling [expand] on a node once for each of its untried actions
    succeeds every time, creates one child per action, and leaves no untried
    action; one more [expand] then raises [IndexError] and changes nothing.
    If the node accounted for its moves before, it is fully expanded
    after. *)
Theorem expand_until_exhausted h n nd :
  h !! n = Some nd ->
  exists h' nd',
    expand_times (length (untried_actions nd)) n h = (h', Ok tt) /\
    h' !! n = Some nd' /\
    untried_actions nd' = [] /\
    length (children nd') = length (children nd) + length (untried_actions nd) /\
    length h' = length h + length (untried_actions nd) /\
    expand n h' = (h', Raise IndexError) /\
    (moves_accounted nd -> is_fully_expanded n h' = Ok true).
Proof.
  remember (length (untried_actions nd)) as k eqn:Hk. symmetry in Hk.
  revert h nd Hk. induction k as [|k IH]; intros h nd Hk Hn.
  - apply length_zero_iff_nil in Hk. exists h, nd. split; [done|].
    split; [done|]. split; [done|]. split; [lia|]. split; [lia|].
    split; [by apply (expand_empty _ _ nd)|].
    intros (tried & Hv & Hl). rewrite (is_fully_expanded_eq _ _ _ Hn).
    rewrite bool_decide_eq_true_2; [done|]. rewrite Hv, Hk. cbn [app]. by rewrite Hl.
  - destruct (length_S_snoc _ _ Hk) as (us & a & Hu & Hus).
    pose proof (lookup_lt_Some _ _ _ Hn) as Hlt.
    destruct (IH (expanded h n nd us a)
                 (with_children (with_untried_actions nd us) (children nd ++ [length h])))
      as (h' & nd' & Ht & Hn' & Hu' & Hc' & Hl' & He' & Hfe'); [done| |].
    { unfold expanded. rewrite lookup_app_l by (by rewrite length_insert).
      by apply list_lookup_insert_eq. }
    exists h', nd'. split.
    { cbn [expand_times]. unfold bind. by rewrite (expand_eq _ _ _ _ _ Hn Hu). }
    split; [done|]. split; [done|].
    split; [rewrite Hc'; cbn; rewrite length_app; cbn; lia|].
    split.
    { rewrite Hl'. unfold expanded. rewrite length_app, length_insert. cbn. lia. }
    split; [done|].
    intros (tried & Hv & Hl). apply Hfe'. exists (a :: tried). cbn. split.
    + by rewrite Hv, Hu, <- app_assoc.
    + rewrite length_app. cbn. lia.
Qed.

(** ** The first iteration on a fresh root *)

(** X17: on a fresh root whose position has no winner and at least one valid
    move, [select] expands the last valid move and returns the new child,
    node 1; backpropagating a winner that is a key at both nodes from that
    child then returns normally and leaves exactly two nodes: the root with
    the one child, the other moves untried, one visit and one win for the
    winner, and the child with one visit and one win for the winner. *)
Theorem first_iteration (gs : GameState) (us : list Move) (a : Move) (w : Player)
    (c : spec_float) (fuel fuel' : nat) :
  winner gs = None ->
  get_valid_moves gs = us ++ [a] ->
  w ∈ OnlyDrawPlayer :: players gs ->
  w ∈ OnlyDrawPlayer :: players (make_move gs a) ->
  exists h1,
    select (S fuel) 0 c [new_node gs None None] = (h1, Ok 1) /\
    backpropagate (S (S fuel')) 1 w h1 =
      ([credit w 0 (with_children (with_untried_actions (new_node gs None None) us) [1]);
        credit w 0 (new_node (make_move gs a) (Some 0) (Some a))],
       Ok tt).
Proof.
  intros Hw Hv Hroot Hchild.
  set (root := new_node gs None None).
  set (child := new_node (make_move gs a) (Some 0) (Some a)).
  set (root' := with_children (with_untried_actions root us) [1]).
  assert ([root] !! 0 = Some root) as H0 by done.
  exists [root'; child]. split.
  - rewrite select_unfold, (is_terminal_eq _ _ _ H0), (is_fully_expanded_eq _ _ _ H0).
    cbn [root new_node game_state children]. rewrite Hw.
    rewrite bool_decide_eq_false_2 by (by intros []).
    rewrite bool_decide_eq_false_2 by (rewrite Hv, length_app; cbn; lia).
    by rewrite (expand_eq [root] 0 root us a H0 Hv).
  - assert ([root'; child] !! 1 = Some child) as H1 by done.
    assert (wins child !! w = Some 0) as Hwc.
    { cbn [child new_node wins]. rewrite init_wins_lookup. by rewrite decide_True. }
    rewrite (backpropagate_frame _ _ _ _ _ _ H1 Hwc).
    cbn [child new_node parent list_insert].
    assert ([root'; credit w 0 child] !! 0 = Some root') as H0' by done.
    assert (wins root' !! w = Some 0) as Hwr.
    { cbn [root' root new_node wins with_children with_untried_actions].
      rewrite init_wins_lookup. by rewrite decide_True. }
    by rewrite (backpropagate_frame _ _ _ _ _ _ H0' Hwr).
Qed.

End TreeFacts.

Section ArgmaxFacts.
Context `{G : Game} `{L : Libm}.
Implicit Types (h : heap) (nd : node) (n : nat) (x y z mp : spec_float).

(** ** The order of [np.argmax] *)

Lemma leb_rank x y :
  F64.is_nan x = false -> F64.is_nan y = false ->
  F64.leb x y = true <-> rank_le (float_rank x) (float_rank y).
Proof.
  unfold rank_le, F64.leb, SFleb.
  destruct x as [sx|sx| |sx mx ex], y as [sy|sy| |sy my ey]; try done;
    try destruct sx; try destruct sy; cbn; intros _ _;
    try (split; [intros; lia|done]); try (split; [done|intros; lia]).
  - change (Pos.compare_cont Eq mx my) with (Pos.compare mx my).
    destruct (Z.compare_spec ex ey), (Pos.compare_spec mx my); cbn;
      split; (done || intros; lia).
  - change (Pos.compare_cont Eq mx my) with (Pos.compare mx my).
    destruct (Z.compare_spec ex ey), (Pos.compare_spec mx my); cbn;
      split; (done || intros; lia).
Qed.

Lemma leb_refl x : F64.is_nan x = false -> F64.leb x x = true.
Proof. intros Hx. apply leb_rank; [done..|]. unfold rank_le. lia. Qed.

Lemma leb_total x y :
  F64.is_nan x = false -> F64.is_nan y = false ->
  F64.leb x y = false -> F64.leb y x = true.
Proof.
  intros Hx Hy Hxy. apply leb_rank; [done..|].
  assert (~ rank_le (float_rank x) (float_rank y)) as Hn.
  { intros Hle%leb_rank; [congruence|done..]. }
  unfold rank_le in *. lia.
Qed.

Lemma leb_trans x y z :
  F64.is_nan x = false -> F64.is_nan y = false -> F64.is_nan z = false ->
  F64.leb x y = true -> F64.leb y z = true -> F64.leb x z = true.
Proof.
  intros Hx Hy Hz Hxy%leb_rank Hyz%leb_rank; [|done..].
  apply leb_rank; [done..|]. unfold rank_le in *. lia.
Qed.

Lemma argmax_from_spec mp mi i (l : list spec_float) :
  F64.is_nan mp = false ->
  Forall (fun x => F64.is_nan x = false) l ->
  mi < i ->
  let r := F64.argmax_from mp mi i l in
  (r = mi /\ Forall (fun x => F64.leb x mp = true) l) \/
  (exists top,
     i <= r /\ l !! (r - i) = Some top /\ F64.leb top mp = false /\
     Forall (fun x => F64.leb x top = true) l /\
     forall j x, j < r - i -> l !! j = Some x -> F64.leb top x = false).
Proof.
  revert mp mi i. induction l as [|x l IH]; intros mp mi i Hmp Hl Hmi; cbn zeta.
  - left. by split.
  - apply Forall_cons in Hl as [Hx Hl]. cbn [F64.argmax_from].
    destruct (F64.leb x mp) eqn:Hxmp.
    + destruct (IH mp mi (S i) Hmp Hl ltac:(lia))
        as [[Hr Hall]|(top & Hr & Htop & Hgt & Hall & Hfirst)].
      * left. split; [done|]. by constructor.
      * right. exists top. pose proof (list_elem_of_lookup_2 _ _ _ Htop) as Hin.
        assert (F64.is_nan top = false) as Hnan.
        { by apply (proj1 (Forall_forall _ _) Hl). }
        split; [lia|]. split.
        { replace (F64.argmax_from mp mi (S i) l - i)
            with (S (F64.argmax_from mp mi (S i) l - S i)) by lia. done. }
        split; [done|]. split.
        { constructor; [|done]. eapply leb_trans; [..|exact Hxmp|]; try done.
          by apply leb_total. }
        intros j y Hj Hy. destruct j as [|j].
        -- injection Hy as <-. destruct (F64.leb top x) eqn:E; [|done].
           rewrite (leb_trans top x mp) in Hgt; done.
        -- apply (Hfirst j); [lia|done].
    + rewrite Hx.
      destruct (IH x i (S i) Hx Hl ltac:(lia))
        as [[Hr Hall]|(top & Hr & Htop & Hgt & Hall & Hfirst)].
      * right. exists x. rewrite Hr, Nat.sub_diag. split; [lia|]. split; [done|].
        split; [done|]. split; [constructor; [by apply leb_refl|done]|].
        intros j y Hj. lia.
      * right. exists top. pose proof (list_elem_of_lookup_2 _ _ _ Htop) as Hin.
        assert (F64.is_nan top = false) as Hnan.
        { by apply (proj1 (Forall_forall _ _) Hl). }
        split; [lia|]. split.
        { replace (F64.argmax_from x i (S i) l - i)
            with (S (F64.argmax_from x i (S i) l - S i)) by lia. done. }
        split.
        { destruct (F64.leb top mp) eqn:E; [|done].
          rewrite (leb_trans x top mp) in Hxmp; try done. by apply leb_total. }
        split; [constructor; [by apply leb_total|done]|].
        intros j y Hj Hy. destruct j as [|j].
        -- by injection Hy as <-.
        -- apply (Hfirst j); [lia|done].
Qed.

Lemma argmax_spec (l : list spec_float) :
  l <> [] ->
  Forall (fun x => F64.is_nan x = false) l ->
  exists top,
    l !! F64.argmax l = Some top /\
    Forall (fun x => F64.leb x top = true) l /\
    forall j x, j < F64.argmax l -> l !! j = Some x -> F64.leb top x = false.
Proof.
  destruct l as [|x l]; [done|]. intros _ [Hx Hl]%Forall_cons.
  cbn [F64.argmax]. rewrite Hx.
  destruct (argmax_from_spec x 0 1 l Hx Hl ltac:(lia))
    as [[Hr Hall]|(top & Hr & Htop & Hgt & Hall & Hfirst)].
  - exists x. rewrite Hr. split; [done|].
    split; [constructor; [by apply leb_refl|done]|]. intros j y Hj. lia.
  - exists top. pose proof (list_elem_of_lookup_2 _ _ _ Htop) as Hin.
    assert (F64.is_nan top = false) as Hnan.
    { by apply (proj1 (Forall_forall _ _) Hl). }
    split.
    { replace (F64.argmax_from x 0 1 l) with (S (F64.argmax_from x 0 1 l - 1)) by lia.
      done. }
    split; [constructor; [by apply leb_total|done]|].
    intros j y Hj Hy. destruct j as [|j].
    + by injection Hy as <-.
    + apply (Hfirst j); [lia|done].
Qed.

Lemma argmax_from_first_nan mp mi i (pre post : list spec_float) :
  Forall (fun x => F64.is_nan x = false) pre ->
  F64.argmax_from mp mi i (pre ++ F64.nan :: post) = i + length pre.
Proof.
  revert mp mi i.
  induction pre as [|x pre IH]; intros mp mi i Hpre; cbn [app length F64.argmax_from].
  - rewrite leb_nan_l. cbn. lia.
  - apply Forall_cons in Hpre as [Hx Hpre]. rewrite Hx.
    destruct (F64.leb x mp); rewrite IH by done; lia.
Qed.

Lemma argmax_first_nan (pre post : list spec_float) :
  Forall (fun x => F64.is_nan x = false) pre ->
  F64.argmax (pre ++ F64.nan :: post) = length pre.
Proof.
  intros Hpre. destruct pre as [|x pre]; [done|].
  apply Forall_cons in Hpre as [Hx Hpre]. cbn [app length F64.argmax].
  rewrite Hx. by rewrite argmax_from_first_nan.
Qed.

Lemma rmap_Ok_Forall2 {A B} (f : A -> R B) (l : list A) h bs :
  rmap f l h = Ok bs -> Forall2 (fun a b => f a h = Ok b) l bs.
Proof.
  revert bs. induction l as [|a l IH]; intros bs; cbn; unfold rbind, rret.
  - intros [= <-]. constructor.
  - destruct (f a h) as [b| |] eqn:Hb; [|done..].
    destruct (rmap f l h) as [bs'| |]; [|done..].
    intros [= <-]. constructor; [done|by apply IH].
Qed.

(** X18: when every child has a UCB value and none of them is NaN,
    [select_child_with_max_ucb] returns a child whose UCB value is at least
    that of every child and strictly above that of every child listed before
    it: the first child of maximal UCB. *)
Theorem select_child_maximises_ucb h n nd c us :
  h !! n = Some nd ->
  children nd <> [] ->
  rmap (fun child => get_ucb child c) (children nd) h = Ok us ->
  Forall (fun u => F64.is_nan u = false) us ->
  exists i ch top,
    select_child_with_max_ucb n c h = Ok ch /\
    children nd !! i = Some ch /\
    get_ucb ch c h = Ok top /\
    (forall cj v, cj ∈ children nd -> get_ucb cj c h = Ok v -> F64.leb v top = true) /\
    (forall j cj v, j < i -> children nd !! j = Some cj -> get_ucb cj c h = Ok v ->
                    F64.leb top v = false).
Proof.
  intros Hn Hne Hus Hnan. pose proof (rmap_Ok_Forall2 _ _ _ _ Hus) as HF.
  pose proof (Forall2_length _ _ _ HF) as Hlen.
  assert (us <> []) as Hus_ne.
  { intros ->. destruct (children nd); [done|]. by cbn in Hlen. }
  destruct (argmax_spec us Hus_ne Hnan) as (top & Htop & Hall & Hfirst).
  destruct (Forall2_lookup_r _ _ _ _ _ HF Htop) as (ch & Hch & Hucb).
  exists (F64.argmax us), ch, top. split.
  { unfold select_child_with_max_ucb, rbind. rewrite (deref_Some _ _ _ Hn), Hus, Hch.
    by destruct us. }
  split; [done|]. split; [done|]. split.
  - intros cj v [j Hj]%list_elem_of_lookup Hv.
    destruct (Forall2_lookup_l _ _ _ _ _ HF Hj) as (v' & Hv' & Hucb').
    assert (v' = v) as -> by congruence.
    apply (proj1 (Forall_forall _ _) Hall). by eapply list_elem_of_lookup_2.
  - intros j cj v Hj Hcj Hv.
    destruct (Forall2_lookup_l _ _ _ _ _ HF Hcj) as (v' & Hv' & Hucb').
    assert (v' = v) as -> by congruence. by eapply Hfirst.
Qed.

(** X19: a NaN beats every number: when every child has a UCB value and the
    value of some child is NaN, [select_child_with_max_ucb] returns the first
    child whose UCB value is NaN, whatever the others are. *)
Theorem select_child_takes_first_nan h n nd c us i ch :
  h !! n = Some nd ->
  rmap (fun child => get_ucb child c) (children nd) h = Ok us ->
  children nd !! i = Some ch ->
  get_ucb ch c h = Ok F64.nan ->
  (forall j cj v, j < i -> children nd !! j = Some cj -> get_ucb cj c h = Ok v ->
                  F64.is_nan v = false) ->
  select_child_with_max_ucb n c h = Ok ch.
Proof.
  intros Hn Hus Hch Hnan Hbefore. pose proof (rmap_Ok_Forall2 _ _ _ _ Hus) as HF.
  pose proof (take_drop_middle _ _ _ Hch) as Hsplit.
  pose proof (lookup_lt_Some _ _ _ Hch) as Hilt.
  rewrite <- Hsplit in HF.
  apply Forall2_app_inv_l in HF as (upre & urest & Hpre & Hrest & ->).
  apply Forall2_cons_inv_l in Hrest as (u & upost & Hu & Hpost & ->).
  cbn beta in Hu. assert (u = F64.nan) as -> by congruence.
  assert (Forall (fun x => F64.is_nan x = false) upre) as Hfin.
  { eapply Forall2_codomain; [exact Hpre|]. cbn. intros a b Ha Hb.
    apply list_elem_of_lookup in Ha as [j Hj].
    pose proof (lookup_lt_Some _ _ _ Hj) as Hjlt. rewrite length_take in Hjlt.
    eapply (Hbefore j a); [lia| |done].
    rewrite <- Hsplit. by apply lookup_app_l_Some. }
  unfold select_child_with_max_ucb, rbind. rewrite (deref_Some _ _ _ Hn), Hus.
  rewrite (argmax_first_nan upre upost Hfin).
  rewrite <- (Forall2_length _ _ _ Hpre), length_take, Nat.min_l by lia.
  rewrite Hch. by destruct upre.
Qed.

End ArgmaxFacts.

(** * The further properties at work on the example games *)

Module ToyMoreFacts.
Import Toy ToyMore ToyFacts.

Lemma h_twice_reachable : reachable h_twice.
Proof.
  apply (reachable_step h_once); [apply h_once_reachable|].
  apply (@step_backpropagate game libm 5 h_once 1 1 h_twice
           (snd (backpropagate (G:=game) 5 1 1 h_once))).
  by vm_compute.
Qed.

Lemma get_ucb_root_fails_witness : get_ucb 0 one h_once = Raise AttributeError.
Proof.
  apply (get_ucb_root_fails (G:=game) h_once 0 (node_at h_once 0) one); by vm_compute.
Defined.

Lemma select_child_is_a_child_witness :
  exists nd, h_twice !! 0 = Some nd /\ 2 ∈ children nd.
Proof.
  apply (select_child_is_a_child (G:=game) h_twice 0 one 2). by vm_compute.
Defined.

Lemma select_dead_end_witness :
  select (G:=stalemate) 1 0 one [new_node (G:=stalemate) tt None None] =
    ([new_node (G:=stalemate) tt None None], Raise ValueError).
Proof.
  apply (select_dead_end (G:=stalemate) (L:=libm) 0
           [new_node (G:=stalemate) tt None None] 0
           (new_node (G:=stalemate) tt None None) one).
  - apply (@reachable_root stalemate libm [] tt), reachable_empty.
  - reflexivity.
  - reflexivity.
  - reflexivity.
Defined.

Lemma select_all_or_nothing_witness :
  fst (select 3 0 one h_once) = h_once \/
  exists m nd us a,
    h_once !! m = Some nd /\ untried_actions nd = us ++ [a] /\
    fst (select 3 0 one h_once) = expanded h_once m nd us a /\
    snd (select 3 0 one h_once) = Ok (length h_once).
Proof.
  apply (select_all_or_nothing (G:=game) 3 h_once 0 one). by vm_compute.
Defined.

Lemma rollout_returns_first_final_winner_witness :
  rollout 3 2 h2 = Ok (winner (playout 1 (game_state (node_at h2 2)))).
Proof.
  apply (rollout_returns_first_final_winner (G:=game) 3 1 h2 2 (node_at h2 2)).
  - by vm_compute.
  - by vm_compute.
  - intros j Hj. destruct j as [|j]; [by vm_compute|lia].
  - lia.
Defined.

Lemma rollout_never_returns_witness :
  rollout (G:=endless) (H:=endless_rollout) 7 0
    [new_node (G:=endless) tt None None] = Stuck.
Proof.
  apply (rollout_never_returns (G:=endless) (RG:=endless_rollout) 7
           [new_node (G:=endless) tt None None] 0 (new_node (G:=endless) tt None None)).
  - reflexivity.
  - intros k. reflexivity.
Defined.

Lemma simple_strategy_move_witness :
  exists move, get_move_from_simple_rollout_strategy (2, true) = Ok move /\
               move ∈ get_valid_moves ((2, true) : GameState).
Proof.
  apply (proj2 (simple_strategy_move (G:=game) (2, true))).
  - by vm_compute.
  - vm_compute. lia.
Defined.

Lemma str_of_root_witness : __str__ 0 h_once = Raise AttributeError.
Proof.
  apply (proj1 (str_of_root (G:=game) h_once 0 (node_at h_once 0)
                  ltac:(by vm_compute) ltac:(by vm_compute))).
  vm_compute. lia.
Defined.

Lemma wins_bounded_by_visits_witness :
  total_wins (node_at h_once 1) <= visits (node_at h_once 1) /\
  (forall k v, wins (node_at h_once 1) !! k = Some v -> v <= visits (node_at h_once 1)).
Proof.
  apply (wins_bounded_by_visits (G:=game) h_once 1 (node_at h_once 1));
    [apply h_once_reachable|by vm_compute].
Defined.

Lemma step_only_grows_witness : heap_grows h2 h_once.
Proof.
  apply (step_only_grows (G:=game) h2 h_once).
  apply (@step_backpropagate game libm 5 h2 1 1 h_once
           (snd (backpropagate (G:=game) 5 1 1 h2))).
  by vm_compute.
Defined.

Lemma tree_links_witness :
  (forall n nd, h2 !! n = Some nd -> NoDup (children nd)) /\
  (forall n nd c, h2 !! n = Some nd -> c ∈ children nd ->
                  exists cd, h2 !! c = Some cd /\ parent cd = Some n) /\
  (forall c cd p, h2 !! c = Some cd -> parent cd = Some p ->
                  exists pd, h2 !! p = Some pd /\ c ∈ children pd).
Proof. apply (tree_links (G:=game) h2), h2_reachable. Defined.

Lemma ancestors_end_at_root_witness : exists d, depth h2 1 d /\ d <= 1.
Proof.
  apply (ancestors_end_at_root (G:=game) h2 1 (node_at h2 1));
    [apply h2_reachable|by vm_compute].
Defined.

Lemma children_record_moves_witness :
  exists tried,
    get_valid_moves (game_state (node_at h2 0)) =
      untried_actions (node_at h2 0) ++ tried /\
    Forall2 (fun c a => exists cd, h2 !! c = Some cd /\ action cd = Some a /\
                                   game_state cd = make_move (game_state (node_at h2 0)) a)
            (children (node_at h2 0)) (reverse tried).
Proof.
  apply (children_record_moves (G:=game) h2 0 (node_at h2 0));
    [apply h2_reachable|by vm_compute].
Defined.

Lemma wins_keys_are_fixed_witness :
  is_Some (wins (node_at h2 0) !! (1 : Player)) <->
  (1 : Player) ∈ OnlyDrawPlayer :: players (game_state (node_at h2 0)).
Proof.
  apply (wins_keys_are_fixed (G:=game) h2 0 (node_at h2 0) 1);
    [apply h2_reachable|by vm_compute].
Defined.

Lemma expand_until_exhausted_witness :
  exists h' nd',
    expand_times (length (untried_actions root_node)) 0 h0 = (h', Ok tt) /\
    h' !! 0 = Some nd' /\
    untried_actions nd' = [] /\
    length (children nd') = length (children root_node) + length (untried_actions root_node) /\
    length h' = length h0 + length (untried_actions root_node) /\
    expand 0 h' = (h', Raise IndexError) /\
    (moves_accounted root_node -> is_fully_expanded 0 h' = Ok true).
Proof. apply (expand_until_exhausted (G:=game) h0 0 root_node). reflexivity. Defined.

Lemma first_iteration_witness :
  exists h1,
    select 1 0 one [new_node (2, true) None None] = (h1, Ok 1) /\
    backpropagate (G:=game) 2 1 1 h1 =
      ([credit (G:=game) 1 0
          (with_children (with_untried_actions (new_node (2, true) None None) [1]) [1]);
        credit (G:=game) 1 0 (new_node (make_move (2, true) 2) (Some 0) (Some 2))],
       Ok tt).
Proof.
  apply (first_iteration (G:=game) (2, true) [1] 2 1 one 0 0).
  - reflexivity.
  - reflexivity.
  - cbn. set_solver.
  - cbn. set_solver.
Defined.

Lemma select_child_maximises_ucb_witness :
  exists i ch top,
    select_child_with_max_ucb 0 one h_both = Ok ch /\
    children (node_at h_both 0) !! i = Some ch /\
    get_ucb ch one h_both = Ok top /\
    (forall cj v, cj ∈ children (node_at h_both 0) -> get_ucb cj one h_both = Ok v ->
                  F64.leb v top = true) /\
    (forall j cj v, j < i -> children (node_at h_both 0) !! j = Some cj ->
                    get_ucb cj one h_both = Ok v -> F64.leb top v = false).
Proof.
  apply (select_child_maximises_ucb (G:=game) h_both 0 (node_at h_both 0) one
           (ucbs_of_root h_both)).
  - by vm_compute.
  - by vm_compute.
  - by vm_compute.
  - vm_compute. repeat constructor.
Defined.

Lemma select_child_takes_first_nan_witness :
  select_child_with_max_ucb 0 one h_once = Ok 2.
Proof.
  apply (select_child_takes_first_nan (G:=game) h_once 0 (node_at h_once 0) one
           (ucbs_of_root h_once) 1 2).
  - by vm_compute.
  - by vm_compute.
  - by vm_compute.
  - by vm_compute.
  - intros j cj v Hj Hcj Hv. destruct j as [|j]; [|lia].
    vm_compute in Hcj. injection Hcj as <-.
    vm_compute in Hv. by injection Hv as <-.
Defined.

End ToyMoreFacts.

(** * Magnitudes of float64 results *)

Section FloatFacts.
Local Open Scope Z_scope.

(** ** Binary digits *)

Lemma digits2_pos_bounds (p : positive) :
  2 ^ (Zpos (digits2_pos p) - 1) <= Zpos p < 2 ^ Zpos (digits2_pos p).
Proof.
  induction p as [p IH|p IH|]; cbn [digits2_pos].
  - rewrite Pos2Z.inj_succ.
    replace (Z.succ (Zpos (digits2_pos p)) - 1) with (Z.succ (Zpos (digits2_pos p) - 1)) by lia.
    rewrite !Z.pow_succ_r by lia. lia.
  - rewrite Pos2Z.inj_succ.
    replace (Z.succ (Zpos (digits2_pos p)) - 1) with (Z.succ (Zpos (digits2_pos p) - 1)) by lia.
    rewrite !Z.pow_succ_r by lia. lia.
  - cbn. lia.
Qed.

Lemma Zdigits2_nonneg n : 0 <= Zdigits2 n.
Proof. destruct n; cbn; lia. Qed.

Lemma Zdigits2_pos n : 0 < n -> 1 <= Zdigits2 n.
Proof. destruct n; cbn; lia. Qed.

Lemma Zdigits2_bounds n :
  0 < n -> 2 ^ (Zdigits2 n - 1) <= n < 2 ^ Zdigits2 n.
Proof. destruct n as [|p|p]; try lia. intros _. apply digits2_pos_bounds. Qed.

Lemma Zdigits2_le_of_lt n k : 0 <= n -> 0 <= k -> n < 2 ^ k -> Zdigits2 n <= k.
Proof.
  intros Hn Hk Hlt. destruct (Z.eq_dec n 0) as [->|Hne]; [cbn; lia|].
  pose proof (Zdigits2_bounds n ltac:(lia)) as [Hlo _].
  pose proof (Zdigits2_pos n ltac:(lia)).
  destruct (Z_lt_le_dec k (Zdigits2 n)) as [Hc|]; [|lia].
  assert (2 ^ k <= 2 ^ (Zdigits2 n - 1)) by (apply Z.pow_le_mono_r; lia). lia.
Qed.

Lemma Zdigits2_ge_of_le n k : 0 <= k -> 2 ^ k <= n -> k + 1 <= Zdigits2 n.
Proof.
  intros Hk Hle. assert (0 < n) by (pose proof (Z.pow_pos_nonneg 2 k); lia).
  pose proof (Zdigits2_bounds n ltac:(lia)) as [_ Hhi].
  destruct (Z_lt_le_dec (Zdigits2 n) (k + 1)) as [Hc|]; [|lia].
  assert (2 ^ Zdigits2 n <= 2 ^ k) by (apply Z.pow_le_mono_r; lia). lia.
Qed.

Lemma Zdigits2_mono a b : 0 <= a <= b -> Zdigits2 a <= Zdigits2 b.
Proof.
  intros [Ha Hab]. destruct (Z.eq_dec b 0) as [->|]; [replace a with 0 by lia; lia|].
  apply Zdigits2_le_of_lt; [lia|apply Zdigits2_nonneg|].
  pose proof (Zdigits2_bounds b ltac:(lia)). lia.
Qed.

Lemma Zdigits2_succ m : 0 <= m -> Zdigits2 (m + 1) <= Zdigits2 m + 1.
Proof.
  intros Hm. apply Zdigits2_le_of_lt; [lia|pose proof (Zdigits2_nonneg m); lia|].
  destruct (Z.eq_dec m 0) as [->|]; [cbn; lia|].
  pose proof (Zdigits2_bounds m ltac:(lia)) as [_ Hhi].
  rewrite Z.pow_add_r by (pose proof (Zdigits2_nonneg m); lia). lia.
Qed.

Lemma Zdigits2_mul_pow2 m k : 0 < m -> 0 <= k -> Zdigits2 (m * 2 ^ k) = Zdigits2 m + k.
Proof.
  intros Hm Hk. pose proof (Zdigits2_bounds m Hm) as [Hlo Hhi].
  pose proof (Zdigits2_pos m Hm). pose proof (Z.pow_pos_nonneg 2 k ltac:(lia) Hk).
  apply Z.le_antisymm.
  - apply Zdigits2_le_of_lt; [lia|lia|]. rewrite Z.pow_add_r by lia. nia.
  - replace (Zdigits2 m + k) with ((Zdigits2 m - 1 + k) + 1) by lia.
    apply Zdigits2_ge_of_le; [lia|]. rewrite Z.pow_add_r by lia. nia.
Qed.

(** Shifting right *)

Lemma shr_1_spec mrs :
  0 <= shr_m mrs ->
  0 <= shr_m (shr_1 mrs) /\
  Zdigits2 (shr_m (shr_1 mrs)) = Z.max 0 (Zdigits2 (shr_m mrs) - 1).
Proof.
  destruct mrs as [m r s]. cbn [shr_m]. intros Hm.
  destruct m as [|[p|p|]|p]; cbn; try lia.
Qed.

Lemma iter_shr_1_spec p mrs :
  0 <= shr_m mrs ->
  0 <= shr_m (SpecFloat.iter_pos shr_1 p mrs) /\
  Zdigits2 (shr_m (SpecFloat.iter_pos shr_1 p mrs)) = Z.max 0 (Zdigits2 (shr_m mrs) - Zpos p).
Proof.
  revert mrs. induction p as [p IH|p IH|]; intros mrs Hm; cbn [SpecFloat.iter_pos].
  - destruct (shr_1_spec mrs Hm) as [H1 D1].
    destruct (IH _ H1) as [H2 D2]. destruct (IH _ H2) as [H3 D3].
    split; [done|]. rewrite D3, D2, D1. lia.
  - destruct (IH _ Hm) as [H2 D2]. destruct (IH _ H2) as [H3 D3].
    split; [done|]. rewrite D3, D2. lia.
  - destruct (shr_1_spec mrs Hm) as [H1 D1]. split; [done|]. rewrite D1. lia.
Qed.

Lemma shr_m_of_loc m l : shr_m (shr_record_of_loc m l) = m.
Proof. by destruct l as [|[]]. Qed.

Lemma fexp_eq e : fexp 53 1024 e = fexp64 e.
Proof. reflexivity. Qed.

Lemma shr_fexp_spec m e l :
  0 <= m ->
  let '(mrs, e') := shr_fexp 53 1024 m e l in
  0 <= shr_m mrs /\
  e' = Z.max e (fexp64 (Zdigits2 m + e)) /\
  Zdigits2 (shr_m mrs) = Z.max 0 (Zdigits2 m - (e' - e)).
Proof.
  intros Hm. unfold shr_fexp, shr. rewrite fexp_eq.
  destruct (fexp64 (Zdigits2 m + e) - e) as [|p|p] eqn:E.
  - rewrite shr_m_of_loc. pose proof (Zdigits2_nonneg m). lia.
  - destruct (iter_shr_1_spec p (shr_record_of_loc m l)) as [H1 D1];
      [by rewrite shr_m_of_loc|].
    rewrite shr_m_of_loc in D1. split; [done|]. split; [lia|]. rewrite D1. lia.
  - rewrite shr_m_of_loc. pose proof (Zdigits2_nonneg m). lia.
Qed.

Lemma round_nearest_even_spec m l :
  0 <= m ->
  m <= round_nearest_even m l <= m + 1.
Proof. intros Hm. destruct l as [|[]]; cbn; try lia. destruct (Z.even m); lia. Qed.

(** Rounding: never NaN, no overflow below the top binade *)

Lemma binary_round_aux_spec sx mx ex lx :
  0 <= mx ->
  ex <= 971 ->
  Zdigits2 mx + ex + 1 <= 1024 ->
  (binary_round_aux 53 1024 sx mx ex lx = S754_zero sx /\
   (0 < mx -> Zdigits2 mx + ex <= -1074)) \/
  exists m e,
    binary_round_aux 53 1024 sx mx ex lx = S754_finite sx m e /\
    Zpos (digits2_pos m) + e <= Z.max (Zdigits2 mx + ex) (-1074) + 1 /\
    (0 < mx -> -1074 < Zdigits2 mx + ex -> Zdigits2 mx + ex <= Zpos (digits2_pos m) + e).
Proof.
  intros Hmx Hex HM. unfold binary_round_aux.
  pose proof (shr_fexp_spec mx ex lx Hmx) as H1.
  destruct (shr_fexp 53 1024 mx ex lx) as [mrs1 e1]. destruct H1 as (Hm1 & He1 & Hd1).
  pose proof (round_nearest_even_spec (shr_m mrs1) (loc_of_shr_record mrs1) Hm1) as Hr.
  set (m2 := round_nearest_even (shr_m mrs1) (loc_of_shr_record mrs1)) in *.
  assert (Zdigits2 (shr_m mrs1) <= Zdigits2 m2 <= Zdigits2 (shr_m mrs1) + 1) as Hd2.
  { split; [apply Zdigits2_mono; lia|].
    etrans; [apply (Zdigits2_mono m2 (shr_m mrs1 + 1)); lia|by apply Zdigits2_succ]. }
  pose proof (shr_fexp_spec m2 e1 loc_Exact ltac:(lia)) as H2.
  destruct (shr_fexp 53 1024 m2 e1 loc_Exact) as [mrs2 e2]. destruct H2 as (Hm3 & He2 & Hd3).
  pose proof (Zdigits2_nonneg mx) as Hdx. unfold fexp64 in *.
  destruct (shr_m mrs2) as [|m|m] eqn:E; [left| |lia].
  { split; [done|]. intros Hpos. cbn [Zdigits2] in Hd3.
    assert (1 <= Zdigits2 mx) by (by apply Zdigits2_pos).
    destruct (Z_le_gt_dec (Zdigits2 mx + ex) (-1074)) as [|Hbig]; [done|exfalso].
    assert (1 <= Zdigits2 (shr_m mrs1)) as Hd1' by lia.
    assert (0 < shr_m mrs1) by (destruct (shr_m mrs1); cbn in Hd1'; lia).
    assert (1 <= Zdigits2 m2) by (apply Zdigits2_pos; lia). lia. }
  right. exists m, e2. cbn [Zdigits2] in Hd3.
  rewrite (proj2 (Z.leb_le e2 (1024 - 53))) by lia.
  split; [done|]. split; [lia|]. intros Hpos Hbig.
  assert (1 <= Zdigits2 mx) by (by apply Zdigits2_pos). lia.
Qed.

(** Shifting left *)

Lemma Zpos_iter_xO m d : Zpos (Pos.iter xO m d) = Zpos m * 2 ^ Zpos d.
Proof.
  induction d as [|d IH] using Pos.peano_ind.
  - cbn. lia.
  - rewrite Pos.iter_succ, Pos2Z.inj_xO, IH, Pos2Z.inj_succ, Z.pow_succ_r by lia. lia.
Qed.

Lemma shl_align_spec mx ex ex' :
  let '(mz, ez) := shl_align mx ex ex' in
  ez = Z.min ex ex' /\ Zpos mz = Zpos mx * 2 ^ (ex - ez).
Proof.
  unfold shl_align. destruct (ex' - ex) as [|d|d] eqn:E.
  - split; [lia|]. replace (ex - ex) with 0 by lia. lia.
  - split; [lia|]. replace (ex - ex) with 0 by lia. lia.
  - split; [lia|]. rewrite Zpos_iter_xO. f_equal. f_equal. lia.
Qed.

Lemma shl_align_digits mx ex ex' :
  let '(mz, ez) := shl_align mx ex ex' in
  ez = Z.min ex ex' /\ Zpos (digits2_pos mz) + ez = Zpos (digits2_pos mx) + ex.
Proof.
  pose proof (shl_align_spec mx ex ex') as H. destruct (shl_align mx ex ex') as [mz ez].
  destruct H as [He Hm]. split; [done|].
  change (Zpos (digits2_pos mz)) with (Zdigits2 (Zpos mz)). rewrite Hm.
  rewrite Zdigits2_mul_pow2 by lia. cbn [Zdigits2]. lia.
Qed.

Lemma binary_round_spec sx mx ex :
  Zpos (digits2_pos mx) + ex + 1 <= 1024 ->
  (binary_round 53 1024 sx mx ex = S754_zero sx /\
   Zpos (digits2_pos mx) + ex <= -1074) \/
  exists m e,
    binary_round 53 1024 sx mx ex = S754_finite sx m e /\
    Zpos (digits2_pos m) + e <= Z.max (Zpos (digits2_pos mx) + ex) (-1074) + 1 /\
    (-1074 < Zpos (digits2_pos mx) + ex ->
     Zpos (digits2_pos mx) + ex <= Zpos (digits2_pos m) + e).
Proof.
  intros HM. unfold binary_round. rewrite fexp_eq.
  pose proof (shl_align_digits mx ex (fexp64 (Zpos (digits2_pos mx) + ex))) as H.
  destruct (shl_align mx ex _) as [mz ez]. destruct H as [He Hd].
  destruct (binary_round_aux_spec sx (Zpos mz) ez loc_Exact) as [[-> Hz]|(m & e & -> & Hup & Hlo)].
  - lia.
  - unfold fexp64 in He. lia.
  - cbn [Zdigits2]. lia.
  - left. split; [done|]. cbn [Zdigits2] in Hz. lia.
  - right. exists m, e. cbn [Zdigits2] in *. split; [done|]. split; [lia|]. intros. lia.
Qed.

(** Floats below a power of two *)

Lemma float_below_mono B B' x : B <= B' -> float_below B x -> float_below B' x.
Proof. destruct x as [| | |[] m e]; cbn; try done. lia. Qed.

Lemma float_below_finite B x : float_below B x -> F64.is_finite x = true.
Proof. by destruct x as [| | |[] m e]. Qed.

Lemma digits_mul (a b : positive) :
  Zpos (digits2_pos (a * b)) <= Zpos (digits2_pos a) + Zpos (digits2_pos b).
Proof.
  change (Zdigits2 (Zpos (a * b)) <= Zdigits2 (Zpos a) + Zdigits2 (Zpos b)).
  pose proof (Zdigits2_bounds (Zpos a) ltac:(lia)) as [_ Ha].
  pose proof (Zdigits2_bounds (Zpos b) ltac:(lia)) as [_ Hb].
  pose proof (Zdigits2_nonneg (Zpos a)). pose proof (Zdigits2_nonneg (Zpos b)).
  apply Zdigits2_le_of_lt; [lia|lia|]. rewrite Z.pow_add_r by lia.
  rewrite Pos2Z.inj_mul. nia.
Qed.

Lemma mul_below B1 B2 x y :
  float_below B1 x -> float_below B2 y ->
  -1074 <= B1 + B2 <= 970 ->
  float_below (B1 + B2 + 1) (F64.mul x y).
Proof.
  unfold F64.mul, F64.prec, F64.emax.
  destruct x as [sx| | |[] m1 e1], y as [sy| | |[] m2 e2]; cbn [float_below SFmul]; try done.
  intros H1 H2 HB.
  pose proof (digits_mul m1 m2).
  assert (1 <= Zpos (digits2_pos m1)) by lia. assert (1 <= Zpos (digits2_pos m2)) by lia.
  destruct (binary_round_aux_spec (xorb false false) (Zpos (m1 * m2)) (e1 + e2) loc_Exact)
    as [[-> _]|(m & e & -> & Hup & _)]; cbn [Zdigits2 xorb float_below] in *; lia.
Qed.

Lemma div_digits a b :
  0 <= a -> 0 < b -> Zdigits2 (a / b) <= Z.max 0 (Zdigits2 a - Zdigits2 b + 1).
Proof.
  intros Ha Hb. assert (0 <= a / b) by (apply Z.div_pos; lia).
  destruct (Z.eq_dec (a / b) 0) as [->|Hq]; [cbn; lia|].
  assert (b <= a).
  { destruct (Z_lt_le_dec a b); [|done]. rewrite Z.div_small in Hq; lia. }
  pose proof (Zdigits2_mono b a ltac:(lia)).
  pose proof (Zdigits2_bounds a ltac:(lia)) as [_ Hahi].
  pose proof (Zdigits2_bounds b ltac:(lia)) as [Hblo _].
  pose proof (Zdigits2_pos b Hb).
  assert (Zdigits2 (a / b) <= Zdigits2 a - Zdigits2 b + 1); [|lia].
  apply Zdigits2_le_of_lt; [lia|lia|].
  apply Z.div_lt_upper_bound; [lia|].
  replace (Zdigits2 a) with ((Zdigits2 b - 1) + (Zdigits2 a - Zdigits2 b + 1)) in Hahi by lia.
  rewrite Z.pow_add_r in Hahi by lia.
  pose proof (Z.pow_pos_nonneg 2 (Zdigits2 a - Zdigits2 b + 1) ltac:(lia) ltac:(lia)).
  nia.
Qed.

Lemma div_core_spec m1 e1 m2 e2 :
  let '(q, e', l) := SFdiv_core_binary 53 1024 (Zpos m1) e1 (Zpos m2) e2 in
  let M := (Zpos (digits2_pos m1) + e1) - (Zpos (digits2_pos m2) + e2) in
  0 <= q /\ e' <= fexp64 M /\ Zdigits2 q + e' <= Z.max e' (M + 1).
Proof.
  unfold SFdiv_core_binary. rewrite fexp_eq. cbn [Zdigits2].
  set (M := Zpos (digits2_pos m1) + e1 - (Zpos (digits2_pos m2) + e2)).
  set (e' := Z.min (fexp64 M) (e1 - e2)).
  set (s := e1 - e2 - e'). assert (0 <= s) by (unfold s, e'; lia).
  set (m' := match s with Z.pos _ => Z.shiftl (Zpos m1) s | 0 => Zpos m1 | Z.neg _ => 0 end).
  assert (m' = Zpos m1 * 2 ^ s) as Hm'.
  { unfold m'. destruct s as [|p|p] eqn:E; [lia| |lia].
    by rewrite Z.shiftl_mul_pow2 by lia. }
  pose proof (Z_div_mod m' (Zpos m2) ltac:(lia)) as Hdm.
  unfold Z.div in *. 
  pose proof (div_digits m' (Zpos m2) ltac:(lia) ltac:(lia)) as Hd. unfold Z.div in Hd.
  assert (0 <= m' / Zpos m2) as Hq by (apply Z.div_pos; lia). unfold Z.div in Hq.
  destruct (Z.div_eucl m' (Zpos m2)) as [q r].
  split; [done|]. split; [unfold e'; lia|].
  rewrite Hm', Zdigits2_mul_pow2 in Hd by lia. cbn [Zdigits2] in Hd.
  unfold s in Hd. unfold M. lia.
Qed.

Lemma div_finite_below m1 e1 m2 e2 :
  let M := (Zpos (digits2_pos m1) + e1) - (Zpos (digits2_pos m2) + e2) in
  M + 2 <= 1024 ->
  float_below (Z.max (M + 1) (-1074) + 1)
    (F64.div (S754_finite false m1 e1) (S754_finite false m2 e2)).
Proof.
  intros M HM. unfold F64.div, F64.prec, F64.emax. cbn [SFdiv].
  pose proof (div_core_spec m1 e1 m2 e2) as H.
  destruct (SFdiv_core_binary 53 1024 (Zpos m1) e1 (Zpos m2) e2) as [[q e'] l].
  cbn zeta in H. fold M in H. destruct H as (Hq & He & Hd). unfold fexp64 in He.
  destruct (binary_round_aux_spec (xorb false false) q e' l)
    as [[-> _]|(m & e & -> & Hup & _)]; cbn [xorb float_below]; lia.
Qed.

Lemma sqrt_digits n k : 0 <= n -> 0 <= k -> n < 2 ^ (2 * k) -> Zdigits2 (Z.sqrt n) <= k.
Proof.
  intros Hn Hk Hlt. pose proof (Z.sqrt_spec n Hn) as [Hlo _].
  pose proof (Z.sqrt_nonneg n).
  apply Zdigits2_le_of_lt; [done..|].
  destruct (Z_lt_le_dec (Z.sqrt n) (2 ^ k)) as [|Hge]; [done|exfalso].
  assert (2 ^ (2 * k) <= Z.sqrt n * Z.sqrt n).
  { replace (2 * k) with (k + k) by lia. rewrite Z.pow_add_r by lia.
    pose proof (Z.pow_pos_nonneg 2 k ltac:(lia) Hk). nia. }
  lia.
Qed.

Lemma sqrt_core_spec m e :
  let '(q, e', l) := SFsqrt_core_binary 53 1024 (Zpos m) e in
  let M := Zpos (digits2_pos m) + e in
  0 <= q /\ e' <= fexp64 ((M + 1) / 2) /\ Zdigits2 q + e' <= (M + 1) / 2.
Proof.
  unfold SFsqrt_core_binary. rewrite fexp_eq. cbn [Zdigits2].
  rewrite !Z.div2_div.
  set (M := Zpos (digits2_pos m) + e).
  set (e' := Z.min (fexp64 ((M + 1) / 2)) (e / 2)).
  set (s := e - 2 * e').
  assert (0 <= s) by (pose proof (Z.mul_div_le e 2 ltac:(lia)); unfold s, e'; lia).
  set (m' := match s with Z.pos _ => Z.shiftl (Zpos m) s | 0 => Zpos m | Z.neg _ => 0 end).
  assert (m' = Zpos m * 2 ^ s) as Hm'.
  { unfold m'. destruct s as [|p|p] eqn:E; [lia| |lia].
    by rewrite Z.shiftl_mul_pow2 by lia. }
  assert (0 < m') by (pose proof (Z.pow_pos_nonneg 2 s); lia).
  pose proof (Z.sqrtrem_sqrt m') as Hsq.
  pose proof (Z.sqrt_nonneg m').
  assert (Zdigits2 m' = Zpos (digits2_pos m) + s) as Hdm'.
  { rewrite Hm', Zdigits2_mul_pow2 by lia. done. }
  pose proof (Zdigits2_bounds m' ltac:(lia)) as [_ Hhi].
  set (k := (Zpos (digits2_pos m) + s + 1) / 2).
  assert (Zpos (digits2_pos m) + s <= 2 * k /\ 0 <= k) as [Hk Hk0].
  { unfold k. pose proof (Z.mul_succ_div_gt (Zpos (digits2_pos m) + s + 1) 2 ltac:(lia)).
    pose proof (Z.div_pos (Zpos (digits2_pos m) + s + 1) 2 ltac:(lia) ltac:(lia)). lia. }
  assert (k = (M + 1) / 2 - e') as Hke.
  { unfold k, s, M. replace (Zpos (digits2_pos m) + (e - 2 * e') + 1)
      with (Zpos (digits2_pos m) + e + 1 + (- e') * 2) by lia.
    rewrite Z.div_add by lia. lia. }
  pose proof (sqrt_digits m' k ltac:(lia) Hk0) as Hd.
  destruct (Z.sqrtrem m') as [q r]. cbn [fst] in Hsq. subst q.
  split; [done|]. split; [unfold e'; lia|].
  assert (Zdigits2 (Z.sqrt m') <= k) as Hd'.
  { apply Hd. eapply Z.lt_le_trans; [exact Hhi|]. rewrite Hdm'.
    apply Z.pow_le_mono_r; lia. }
  lia.
Qed.

Lemma sqrt_below B x :
  float_below B x -> 0 <= B <= 1000 -> float_below (B + 1) (F64.sqrt x).
Proof.
  unfold F64.sqrt, F64.prec, F64.emax.
  destruct x as [sx| | |[] m e]; cbn [float_below SFsqrt]; try done.
  intros HM HB. pose proof (sqrt_core_spec m e) as H.
  destruct (SFsqrt_core_binary 53 1024 (Zpos m) e) as [[q e'] l].
  cbn zeta in H. destruct H as (Hq & He & Hd). unfold fexp64 in He.
  assert ((Zpos (digits2_pos m) + e + 1) / 2 <= B) as Hhalf.
  { assert ((Zpos (digits2_pos m) + e + 1) / 2 < B + 1); [|lia].
    apply Z.div_lt_upper_bound; lia. }
  destruct (binary_round_aux_spec false q e' l)
    as [[-> _]|(m' & e'' & -> & Hup & _)]; cbn [float_below]; lia.
Qed.

Lemma add_digits a b :
  0 < a -> 0 < b -> Zdigits2 (a + b) <= Z.max (Zdigits2 a) (Zdigits2 b) + 1.
Proof.
  intros Ha Hb.
  pose proof (Zdigits2_bounds a Ha) as [_ Hahi].
  pose proof (Zdigits2_bounds b Hb) as [_ Hbhi].
  pose proof (Zdigits2_nonneg a). pose proof (Zdigits2_nonneg b).
  apply Zdigits2_le_of_lt; [lia|lia|]. rewrite Z.pow_add_r by lia.
  assert (2 ^ Zdigits2 a <= 2 ^ Z.max (Zdigits2 a) (Zdigits2 b)) by (apply Z.pow_le_mono_r; lia).
  assert (2 ^ Zdigits2 b <= 2 ^ Z.max (Zdigits2 a) (Zdigits2 b)) by (apply Z.pow_le_mono_r; lia).
  lia.
Qed.

Lemma add_below B1 B2 x y :
  float_below B1 x -> float_below B2 y ->
  -1074 <= B1 <= 1000 -> -1074 <= B2 <= 1000 ->
  float_below (Z.max B1 B2 + 2) (F64.add x y).
Proof.
  unfold F64.add, F64.prec, F64.emax.
  destruct x as [sx| | |[] m1 e1], y as [sy| | |[] m2 e2]; cbn [float_below SFadd]; try done.
  - intros _ _ _ _. by destruct sx, sy.
  - intros _ H2 _ _. lia.
  - intros H1 _ _ _. lia.
  - intros H1 H2 HB1 HB2.
    pose proof (shl_align_digits m1 e1 (Z.min e1 e2)) as Ha1.
    pose proof (shl_align_digits m2 e2 (Z.min e1 e2)) as Ha2.
    destruct (shl_align m1 e1 (Z.min e1 e2)) as [z1 ez1].
    destruct (shl_align m2 e2 (Z.min e1 e2)) as [z2 ez2].
    destruct Ha1 as [He1 Hd1], Ha2 as [He2 Hd2].
    cbn [fst cond_Zopp].
    pose proof (add_digits (Zpos z1) (Zpos z2) ltac:(lia) ltac:(lia)) as Hs.
    change (Zpos z1 + Zpos z2) with (Zpos (z1 + z2)) in *.
    cbn [Zdigits2 binary_normalize] in *.
    destruct (binary_round_spec false (z1 + z2) (Z.min e1 e2))
      as [[-> _]|(m & e & -> & Hup & _)]; cbn [float_below]; lia.
Qed.

Lemma truediv_below w v :
  0 <= w <= v -> 1 <= v -> float_below 2 (F64.truediv w v).
Proof.
  intros Hw Hv. unfold F64.truediv.
  destruct v as [|pv|pv]; try lia. destruct w as [|pw|pw]; try lia; [done|].
  cbn [F64.exact_int].
  eapply float_below_mono; [|apply div_finite_below].
  - pose proof (Zdigits2_mono (Zpos pw) (Zpos pv) ltac:(lia)) as H. cbn [Zdigits2] in H. lia.
  - pose proof (Zdigits2_mono (Zpos pw) (Zpos pv) ltac:(lia)) as H. cbn [Zdigits2] in H.
    cbn zeta. lia.
Qed.

Lemma of_int_pos v :
  1 <= v -> Zdigits2 v <= 1000 ->
  exists m e,
    F64.of_int v = S754_finite false m e /\
    Zdigits2 v <= Zpos (digits2_pos m) + e <= Zdigits2 v + 1.
Proof.
  intros Hv Hd. destruct v as [|p|p]; try lia. cbn [Zdigits2] in *.
  unfold F64.of_int, F64.prec, F64.emax. cbn [binary_normalize].
  destruct (binary_round_spec false p 0) as [[_ Hz]|(m & e & -> & Hup & Hlo)]; [lia|lia|].
  exists m, e. split; [done|]. lia.
Qed.

Lemma div_below B x m2 e2 :
  float_below B x -> 0 <= B <= 1000 ->
  1 <= Zpos (digits2_pos m2) + e2 ->
  float_below (B + 1) (F64.div x (S754_finite false m2 e2)).
Proof.
  intros Hx HB Hy. destruct x as [sx| | |[] m1 e1]; try done.
  cbn [float_below] in Hx.
  eapply float_below_mono; [|apply div_finite_below]; cbn zeta; lia.
Qed.

End FloatFacts.

(** * An unvisited child is selected *)

Section UcbFacts.
Context `{G : Game} `{L : Libm}.

Lemma np_log_below (pv : nat) :
  1 <= pv -> log_regular pv -> float_below 10 (np_log (Z.of_nat pv)).
Proof.
  intros Hpv Hlog. destruct (decide (pv = 1)) as [->|Hne]; [done|].
  destruct Hlog as (m & e & -> & Hm); [lia|done].
Qed.

(** The UCB value of a visited child is a finite number: the win ratio is at
    most one, the exploration term is [c] times the square root of a
    quotient below [2 ^ 11]. *)
Lemma visited_ucb_finite h n nd ch cd c w :
  h !! n = Some nd ->
  h !! ch = Some cd ->
  parent cd = Some n ->
  1 <= visits cd <= visits nd ->
  (Z.of_nat (visits cd) < 2 ^ 64)%Z ->
  wins cd !! current_player (game_state nd) = Some w ->
  w <= visits cd ->
  float_below 900 c ->
  log_regular (visits nd) ->
  exists u, get_ucb ch c h = Ok u /\ F64.is_finite u = true.
Proof.
  intros Hn Hc Hp Hv Hv64 Hw Hwv Hcb Hlog.
  unfold get_ucb, win_ratio, rbind. rewrite (deref_Some _ _ _ Hc).
  rewrite bool_decide_eq_false_2 by lia. rewrite Hp, (deref_Some _ _ _ Hn), Hw.
  eexists. split; [done|].
  assert (Zdigits2 (Z.of_nat (visits cd)) <= 64)%Z as Hd.
  { apply Zdigits2_le_of_lt; lia. }
  destruct (of_int_pos (Z.of_nat (visits cd))) as (mv & ev & -> & Hmv); [lia|lia|].
  pose proof (Zdigits2_pos (Z.of_nat (visits cd)) ltac:(lia)).
  pose proof (truediv_below (Z.of_nat w) (Z.of_nat (visits cd)) ltac:(lia) ltac:(lia)) as Hwr.
  pose proof (np_log_below (visits nd) ltac:(lia) Hlog) as HL.
  pose proof (div_below 10 _ mv ev HL ltac:(lia) ltac:(lia)) as HD.
  pose proof (sqrt_below _ _ HD ltac:(lia)) as HX.
  pose proof (mul_below _ _ _ _ Hcb HX ltac:(lia)) as HY.
  pose proof (add_below _ _ _ _ Hwr HY ltac:(lia) ltac:(lia)) as HU.
  by eapply float_below_finite.
Qed.

(** The UCB value of an unvisited child: [log 0 / 0] is [-inf] and its
    square root NaN, [log 1 / 0] is [0 / 0], and from two visits on the
    square root is [+inf], which times zero is NaN. *)
Lemma unvisited_ucb_value (pv : nat) c :
  float_below 900 c ->
  log_regular pv ->
  unvisited_ucb pv c =
    if is_zero c || (pv <=? 1) then F64.nan else F64.inf.
Proof.
  intros Hc Hlog. unfold unvisited_ucb.
  change (F64.of_int 0) with (S754_zero false).
  destruct pv as [|[|pv]].
  - rewrite orb_true_r. cbn. by destruct c as [| | |[]].
  - rewrite orb_true_r. cbn. by destruct c as [| | |[]].
  - destruct Hlog as (m & e & -> & _); [lia|].
    replace (S (S pv) <=? 1) with false by (symmetry; apply Nat.leb_gt; lia).
    rewrite orb_false_r. by destruct c as [| | |[]].
Qed.

(** ** Visits in trees built by calls that return *)

Lemma built_reachable h : built h -> reachable h.
Proof.
  induction 1 as [|h gs _ IH|h h' _ IH Hstep].
  - constructor.
  - by constructor.
  - apply (reachable_step h); [done|].
    destruct Hstep; [by eapply step_expand|by eapply step_backpropagate|by eapply step_select].
Qed.

Lemma ordered_root h gs :
  parent_below h -> ordered h -> ordered (h ++ [new_node gs None None]).
Proof.
  intros Hpb Ho c cd p pd Hc Hp Hpd.
  apply lookup_snoc_cases in Hc as [[Hclt Hc]|[_ ->]]; [|done].
  pose proof (Hpb _ _ _ Hc Hp) as Hlt.
  apply lookup_snoc_cases in Hpd as [[_ Hpd]|[-> _]]; [|lia].
  by eapply Ho.
Qed.

Lemma ordered_expanded h n nd us a :
  parent_below h -> h !! n = Some nd -> ordered h -> ordered (expanded h n nd us a).
Proof.
  intros Hpb Hn Ho c cd p pd Hc Hp Hpd.
  apply (expanded_lookup _ _ _ _ _ _ _ Hn) in Hc as [[-> ->]|[[Hcn Hc]|[-> ->]]];
    [| |cbn; lia].
  - cbn in Hp. pose proof (Hpb _ _ _ Hn Hp) as Hlt.
    apply (expanded_lookup _ _ _ _ _ _ _ Hn) in Hpd as [[-> ->]|[[_ Hpd]|[-> _]]].
    + lia.
    + cbn. by eapply Ho.
    + apply lookup_lt_Some in Hn. lia.
  - pose proof (Hpb _ _ _ Hc Hp) as Hlt.
    apply (expanded_lookup _ _ _ _ _ _ _ Hn) in Hpd as [[-> ->]|[[_ Hpd]|[-> _]]].
    + cbn. by eapply Ho.
    + by eapply Ho.
    + apply lookup_lt_Some in Hc. lia.
Qed.

(** On the way up, only the node about to be credited may be one visit
    behind its children. *)
Lemma ordered_backpropagate fuel h n w h' :
  parent_below h ->
  (forall c cd p pd,
     h !! c = Some cd -> parent cd = Some p -> h !! p = Some pd ->
     visits cd <= visits pd + (if decide (p = n) then 1 else 0)) ->
  backpropagate fuel n w h = (h', Ok tt) ->
  ordered h'.
Proof.
  revert h n. induction fuel as [|fuel IH]; intros h n Hpb Ho Hb; [done|].
  destruct (h !! n) as [nd|] eqn:Hn.
  2: { cbn [backpropagate] in Hb. unfold bind, read, deref in Hb.
       by rewrite Hn in Hb. }
  destruct (wins nd !! w) as [k|] eqn:Hw.
  2: { by rewrite (backpropagate_unknown_eq _ _ _ _ _ Hn Hw) in Hb. }
  rewrite (backpropagate_frame _ _ _ _ _ _ Hn Hw) in Hb.
  pose proof (lookup_lt_Some _ _ _ Hn) as Hnlt.
  assert (forall c cd p pd,
            <[n := credit w k nd]> h !! c = Some cd -> parent cd = Some p ->
            <[n := credit w k nd]> h !! p = Some pd ->
            visits cd <= visits pd + (if decide (Some p = parent nd) then 1 else 0)) as Hmid.
  { intros c cd p pd Hc Hp Hpd.
    destruct (decide (c = n)) as [->|Hcn].
    - rewrite list_lookup_insert_eq in Hc by done. injection Hc as <-. cbn in Hp.
      rewrite decide_True by done.
      pose proof (Hpb _ _ _ Hn Hp) as Hlt.
      rewrite list_lookup_insert_ne in Hpd by lia.
      specialize (Ho _ _ _ _ Hn Hp Hpd). rewrite decide_False in Ho by lia. cbn. lia.
    - rewrite list_lookup_insert_ne in Hc by done.
      destruct (decide (p = n)) as [->|Hpn].
      + rewrite list_lookup_insert_eq in Hpd by done. injection Hpd as <-.
        specialize (Ho _ _ _ _ Hc Hp Hn). rewrite decide_True in Ho by done. cbn. lia.
      + rewrite list_lookup_insert_ne in Hpd by done.
        specialize (Ho _ _ _ _ Hc Hp Hpd). rewrite decide_False in Ho by done. lia. }
  assert (parent_below (<[n := credit w k nd]> h)) as Hpb'.
  { intros c cd p Hc Hp. destruct (decide (c = n)) as [->|Hcn].
    - rewrite list_lookup_insert_eq in Hc by done. injection Hc as <-.
      by apply (Hpb _ _ _ Hn).
    - rewrite list_lookup_insert_ne in Hc by done. by eapply Hpb. }
  destruct (parent nd) as [pn|] eqn:Hpn.
  - eapply IH; [exact Hpb'| |exact Hb].
    intros c cd p pd Hc Hp Hpd. specialize (Hmid _ _ _ _ Hc Hp Hpd).
    destruct (decide (p = pn)) as [->|Hne].
    + by rewrite decide_True in Hmid.
    + rewrite decide_False in Hmid by congruence. lia.
  - injection Hb as <-. intros c cd p pd Hc Hp Hpd.
    specialize (Hmid _ _ _ _ Hc Hp Hpd). rewrite decide_False in Hmid by done. lia.
Qed.

Lemma built_ordered h : built h -> ordered h.
Proof.
  induction 1 as [|h gs Hb IH|h h' Hb IH Hstep].
  - intros c cd p pd Hc. by rewrite lookup_nil in Hc.
  - apply ordered_root; [|done].
    by apply reachable_well_formed, built_reachable.
  - pose proof (wf_parent _ (reachable_well_formed _ (built_reachable _ Hb))) as Hpb.
    assert (forall m o, expand m h = (h', o) -> ordered h') as Hexp.
    { intros m o [[-> _]|(nd & us & a & Hn & _ & -> & _)]%expand_cases; [done|].
      by apply ordered_expanded. }
    destruct Hstep as [h n h' r He|fuel h n w h' Hbp|fuel h n c h' r Hs].
    + by eapply Hexp.
    + eapply ordered_backpropagate; [exact Hpb| |exact Hbp].
      intros c cd p pd Hc Hp Hpd. specialize (IH _ _ _ _ Hc Hp Hpd). lia.
    + apply select_heap in Hs as [->|(m & o' & He)]; [done|by eapply Hexp].
Qed.

(** ** The selection *)

(** No win count exceeds the visits. *)
Lemma reachable_wins_le_visits h :
  reachable h ->
  forall n nd k v, h !! n = Some nd -> wins nd !! k = Some v -> v <= visits nd.
Proof.
  intros Hr.
  assert (forall n nd, h !! n = Some nd -> total_wins nd <= visits nd) as Htotal.
  { revert h Hr.
    apply (reachable_ops_ind
             (fun h => forall n nd, h !! n = Some nd -> total_wins nd <= visits nd)).
    - intros n nd Hn. by rewrite lookup_nil in Hn.
    - intros h gs _ IH n nd Hn.
      apply lookup_snoc_cases in Hn as [[_ Hn]|[_ ->]]; [by eapply IH|].
      rewrite total_wins_new_node. lia.
    - intros h n0 nd0 us a _ IH Hn0 _ n nd Hn.
      apply (expanded_lookup _ _ _ _ _ _ _ Hn0) in Hn as [[_ ->]|[[_ Hn]|[_ ->]]].
      + apply (IH _ _ Hn0).
      + by eapply IH.
      + rewrite total_wins_new_node. lia.
    - intros h n0 nd0 w _ IH Hn0 _ n nd Hn.
      pose proof (lookup_lt_Some _ _ _ Hn0) as Hlt.
      destruct (decide (n = n0)) as [->|Hne].
      + rewrite list_lookup_insert_eq in Hn by done. injection Hn as <-.
        specialize (IH _ _ Hn0). unfold total_wins in *. cbn. lia.
      + rewrite list_lookup_insert_ne in Hn by done. by eapply IH.
    - intros h n0 nd0 w k _ IH Hn0 Hw n nd Hn.
      pose proof (lookup_lt_Some _ _ _ Hn0) as Hlt.
      destruct (decide (n = n0)) as [->|Hne].
      + rewrite list_lookup_insert_eq in Hn by done. injection Hn as <-.
        rewrite total_wins_credit by done. specialize (IH _ _ Hn0). cbn. lia.
      + rewrite list_lookup_insert_ne in Hn by done. by eapply IH. }
  intros n nd k v Hn Hk. specialize (Htotal _ _ Hn).
  pose proof (total_wins_lookup _ _ _ Hk). lia.
Qed.

(** The same on any heap, from what the node and its children hold. *)
Lemma unvisited_child_selected_at h n nd c :
  h !! n = Some nd ->
  float_below 900 c ->
  log_regular (visits nd) ->
  (forall ch, ch ∈ children nd ->
     exists cd, h !! ch = Some cd /\ parent cd = Some n /\
       (0 < visits cd ->
        visits cd <= visits nd /\ (Z.of_nat (visits cd) < 2 ^ 64)%Z /\
        exists w, wins cd !! current_player (game_state nd) = Some w /\
                  w <= visits cd)) ->
  (exists ch, ch ∈ children nd /\ unvisited h ch = true) ->
  exists i ch,
    select_child_with_max_ucb n c h = Ok ch /\
    children nd !! i = Some ch /\
    unvisited h ch = true /\
    (forall j cj, j < i -> children nd !! j = Some cj -> unvisited h cj = false) /\
    get_ucb ch c h =
      Ok (if is_zero c || (visits nd <=? 1) then F64.nan else F64.inf).
Proof.
  intros Hn Hc Hlog Hch Hun.
  destruct (argmax_takes_first_unvisited h n nd c Hn) as (i & ch & Hs & Hi & Hu & Hb & Hv & _).
  - intros ch Hin. destruct (Hch _ Hin) as (cd & Hcd & Hp & _). eauto.
  - intros ch Hin Hu. destruct (Hch _ Hin) as (cd & Hcd & Hp & Hvis).
    unfold unvisited in Hu. rewrite Hcd in Hu. apply bool_decide_eq_false_1 in Hu.
    destruct Hvis as (Hle & H64 & w & Hw & Hwv); [lia|].
    apply (visited_ucb_finite h n nd ch cd c w); try done. lia.
  - done.
  - exists i, ch. rewrite <- unvisited_ucb_value by done. done.
Qed.

(** C2, as the code has it: in a tree built by calls that return, for a node
    with fewer than [2 ^ 64] visits, an exploration constant [c] that is a
    zero or a positive float below [2 ^ 900], and a logarithm of the node's
    visits that is a positive float below [2 ^ 10], if some child is
    unvisited then [select_child_with_max_ucb] returns the first unvisited
    child.  The UCB value of that child is NaN when [c] is zero or the node
    has at most one visit, and [+inf] otherwise; [np.argmax] takes either
    over the finite values of the visited children. *)
Theorem unvisited_child_selected `{!GameContract} h n nd c :
  built h ->
  h !! n = Some nd ->
  (Z.of_nat (visits nd) < 2 ^ 64)%Z ->
  float_below 900 c ->
  log_regular (visits nd) ->
  (exists ch, ch ∈ children nd /\ unvisited h ch = true) ->
  exists i ch,
    select_child_with_max_ucb n c h = Ok ch /\
    children nd !! i = Some ch /\
    unvisited h ch = true /\
    (forall j cj, j < i -> children nd !! j = Some cj -> unvisited h cj = false) /\
    get_ucb ch c h =
      Ok (if is_zero c || (visits nd <=? 1) then F64.nan else F64.inf).
Proof.
  intros Hb Hn H64 Hc Hlog Hun.
  pose proof (built_reachable _ Hb) as Hr.
  pose proof (reachable_well_formed _ Hr) as Hwf.
  apply unvisited_child_selected_at; try done.
  intros ch Hin.
  destruct (wf_children _ Hwf _ _ _ Hn Hin) as (cd & a & Hcd & _ & Hp & Ha & Hgs).
  exists cd. split; [done|]. split; [done|]. intros Hv.
  pose proof (built_ordered _ Hb _ _ _ _ Hcd Hp Hn) as Hle.
  split; [done|]. split; [lia|].
  destruct (proj2 (wf_keys _ Hwf _ _ Hcd (current_player (game_state nd)))) as [w Hw].
  { rewrite Hgs. by apply mover_known. }
  exists w. split; [done|]. by eapply reachable_wins_le_visits.
Qed.

End UcbFacts.

Module ToyUcbFacts.
Import Toy ToyMore ToyFacts.

Lemma h_twice_built : built h_twice.
Proof.
  apply (built_step h_once).
  - apply (built_step h2).
    + apply (built_step h1).
      * apply (built_step h0).
        -- apply (@built_root game libm [] (2, true)), built_empty.
        -- by apply (@returns_expand game libm h0 0 h1 1).
      * by apply (@returns_expand game libm h1 0 h2 2).
    + by apply (@returns_backpropagate game libm 5 h2 1 1 h_once).
  - by apply (@returns_backpropagate game libm 5 h_once 1 1 h_twice).
Qed.

Lemma h_root_thrice_built : built h_root_thrice.
Proof.
  apply (built_step (fst (backpropagate (G:=game) 5 0 1 h_once))).
  - apply (built_step h_once).
    + apply (built_step h2).
      * apply (built_step h1).
        -- apply (built_step h0).
           ++ apply (@built_root game libm [] (2, true)), built_empty.
           ++ by apply (@returns_expand game libm h0 0 h1 1).
        -- by apply (@returns_expand game libm h1 0 h2 2).
      * by apply (@returns_backpropagate game libm 5 h2 1 1 h_once).
    + by apply (@returns_backpropagate game libm 5 h_once 0 1).
  - by apply (@returns_backpropagate game libm 5 _ 0 1).
Qed.

(** On [h_twice] with an exploration constant of one, node 2 is chosen and
    its UCB value is [+inf]. *)
Lemma unvisited_child_selected_witness :
  exists i ch,
    select_child_with_max_ucb 0 one h_twice = Ok ch /\
    children (node_at h_twice 0) !! i = Some ch /\
    unvisited h_twice ch = true /\
    (forall j cj, j < i -> children (node_at h_twice 0) !! j = Some cj ->
                  unvisited h_twice cj = false) /\
    get_ucb ch one h_twice = Ok F64.inf.
Proof.
  apply (unvisited_child_selected (G:=game) (L:=libm) (H:=contract)
           h_twice 0 (node_at h_twice 0) one).
  - apply h_twice_built.
  - by vm_compute.
  - by vm_compute.
  - vm_compute. by intros [=].
  - intros _. exists 6243314768165359%positive, (-53)%Z. split; [reflexivity|by vm_compute].
  - exists 2. rewrite h_twice_children. split; [set_solver|by vm_compute].
Defined.

(** C2 does not hold as stated.  On [h_twice], built by calls that return,
    with an exploration constant of zero, the unvisited node 2 is chosen, but
    its UCB value is not [+inf]: [0 * inf] is NaN, and so is [inf + NaN]. *)
Lemma unvisited_ucb_not_infinite :
  ~ ((exists ch, ch ∈ children (node_at h_twice 0) /\ unvisited h_twice ch = true) ->
     F64.leb F64.zero F64.zero = true ->
     (exists ch, select_child_with_max_ucb 0 F64.zero h_twice = Ok ch /\
                 unvisited h_twice ch = true) /\
     (forall ch, ch ∈ children (node_at h_twice 0) -> unvisited h_twice ch = true ->
                 get_ucb ch F64.zero h_twice = Ok F64.inf)).
Proof.
  assert (2 ∈ children (node_at h_twice 0)) as Hin.
  { rewrite h_twice_children. set_solver. }
  intros Hclaim.
  assert (unvisited h_twice 2 = true) as Hun by (by vm_compute).
  assert (F64.leb F64.zero F64.zero = true) as Hc by (by vm_compute).
  pose proof (proj2 (Hclaim (ex_intro _ 2 (conj Hin Hun)) Hc) 2 Hin Hun) as Hinf.
  replace (get_ucb 2 F64.zero h_twice) with (Ok F64.nan) in Hinf by (by vm_compute).
  discriminate Hinf.
Qed.

(** There [np.argmax] sees a one and a NaN, and takes the NaN. *)
Example zero_constant_selects_unvisited :
  rmap (fun child => get_ucb child F64.zero) [1; 2] h_twice = Ok [one; F64.nan] /\
  select_child_with_max_ucb 0 F64.zero h_twice = Ok 2.
Proof. by vm_compute. Qed.

(** Why the exploration constant is bounded.  With the largest finite
    float64 and three visits on the root, the UCB value of the visited node 1
    overflows to [+inf], ties with that of the unvisited node 2, and
    [np.argmax] takes the first. *)
Example huge_constant_overflows :
  F64.is_finite huge = true /\
  unvisited h_root_thrice 1 = false /\
  unvisited h_root_thrice 2 = true /\
  rmap (fun child => get_ucb child huge) [1; 2] h_root_thrice = Ok [F64.inf; F64.inf] /\
  select_child_with_max_ucb 0 huge h_root_thrice = Ok 1.
Proof. by vm_compute. Qed.

End ToyUcbFacts.
